(** * Round-robin load balancer: a shallow embedding and its properties

    The development follows the three translation units of the repository:
    - [server.cpp]                    -> module [Server]
    - [ping_server.cpp]               -> module [PingServer]
    - [round_robin_load_balancer.cpp] -> modules [LoadBalancer],
      [RoundRobinLoadBalancer] and [WeightedRoundRobinLoadBalancer]

    The model is sequential: every [std::atomic] field is a plain record
    field, and the mutexes are not represented.  Objects held through
    [std::shared_ptr<Server>] live in a store ([Heap]) indexed by pointers, so
    that a server reachable from the pool, from the weighted list and from a
    caller is one and the same object. *)

From Stdlib Require Import ZArith Lia Ascii.
From stdpp Require Import base option list gmap strings functions.

Local Open Scope Z_scope.

(** ** Machine integers *)

Module Machine.

(** [uint32_t] and [size_t] values are integers of [Z]; arithmetic on them
    is written with its wrap-around. *)
Definition UINT32_MAX : Z := 2 ^ 32 - 1.
Definition INT_MIN : Z := - 2 ^ 31.
Definition INT_MAX : Z := 2 ^ 31 - 1.
(** No [std::vector] holds more than [PTRDIFF_MAX] elements. *)
Definition PTRDIFF_MAX : Z := 2 ^ 63 - 1.

Definition wrap16 (z : Z) : Z := z mod 2 ^ 16.
Definition wrap32 (z : Z) : Z := z mod 2 ^ 32.
Definition wrap64 (z : Z) : Z := z mod 2 ^ 64.

Definition is_uint32 (z : Z) : Prop := 0 <= z <= UINT32_MAX.

(** [a + b] on [size_t]. *)
Definition size_add (a b : Z) : Z := wrap64 (a + b).

(** [x++] and [x--] on an [std::atomic<uint32_t>]. *)
Definition incr32 (x : Z) : Z := wrap32 (x + 1).
Definition decr32 (x : Z) : Z := wrap32 (x - 1).

End Machine.

(** ** server.cpp *)

Module Server.
Import Machine.

(** The fields of [class Server]; each projection is the getter of the
    private field of the same role ([getServerAddress] reads
    [_serverAddress], [isAlive] reads [_isAlive], and so on).  Time points
    of [std::chrono::steady_clock] are tick counts. *)
Record t : Type := mk {
  getServerAddress : string;
  isAlive : bool;
  isHealthy : bool;
  getLastHealthCheck : Z;
  getWeight : Z;
  getCurrentConnections : Z;
  getFailureCount : Z
}.

(** [Server::Server(const std::string&, uint32_t weight = 1)]; [now] is the
    value of [steady_clock::now()] at construction. *)
Definition new (serverAddress : string) (weight : Z) (now : Z) : t :=
  {| getServerAddress := serverAddress;
     isAlive := true;
     isHealthy := false;
     getLastHealthCheck := now;
     getWeight := weight;
     getCurrentConnections := 0;
     getFailureCount := 0 |}.

(** Copy construction (and move construction, which reads the same
    fields): the connection count is not copied. *)
Definition copy (other : t) : t :=
  {| getServerAddress := getServerAddress other;
     isAlive := isAlive other;
     isHealthy := isHealthy other;
     getLastHealthCheck := getLastHealthCheck other;
     getWeight := getWeight other;
     getCurrentConnections := 0;
     getFailureCount := getFailureCount other |}.

(** Copy and move assignment: the connection count of [this] is kept. *)
Definition assign (this other : t) : t :=
  {| getServerAddress := getServerAddress other;
     isAlive := isAlive other;
     isHealthy := isHealthy other;
     getLastHealthCheck := getLastHealthCheck other;
     getWeight := getWeight other;
     getCurrentConnections := getCurrentConnections this;
     getFailureCount := getFailureCount other |}.

Definition setAlive (b : bool) (s : t) : t :=
  {| getServerAddress := getServerAddress s;
     isAlive := b;
     isHealthy := isHealthy s;
     getLastHealthCheck := getLastHealthCheck s;
     getWeight := getWeight s;
     getCurrentConnections := getCurrentConnections s;
     getFailureCount := getFailureCount s |}.

Definition resetFailures (s : t) : t :=
  {| getServerAddress := getServerAddress s;
     isAlive := isAlive s;
     isHealthy := isHealthy s;
     getLastHealthCheck := getLastHealthCheck s;
     getWeight := getWeight s;
     getCurrentConnections := getCurrentConnections s;
     getFailureCount := 0 |}.

(** [_isHealthy.store(isHealthy); if (isHealthy) resetFailures();] *)
Definition setHealthy (b : bool) (s : t) : t :=
  let s1 :=
    {| getServerAddress := getServerAddress s;
       isAlive := isAlive s;
       isHealthy := b;
       getLastHealthCheck := getLastHealthCheck s;
       getWeight := getWeight s;
       getCurrentConnections := getCurrentConnections s;
       getFailureCount := getFailureCount s |} in
  if b then resetFailures s1 else s1.

Definition updateLastHealthCheck (now : Z) (s : t) : t :=
  {| getServerAddress := getServerAddress s;
     isAlive := isAlive s;
     isHealthy := isHealthy s;
     getLastHealthCheck := now;
     getWeight := getWeight s;
     getCurrentConnections := getCurrentConnections s;
     getFailureCount := getFailureCount s |}.

Definition setWeight (weight : Z) (s : t) : t :=
  {| getServerAddress := getServerAddress s;
     isAlive := isAlive s;
     isHealthy := isHealthy s;
     getLastHealthCheck := getLastHealthCheck s;
     getWeight := weight;
     getCurrentConnections := getCurrentConnections s;
     getFailureCount := getFailureCount s |}.

Definition setCurrentConnections (c : Z) (s : t) : t :=
  {| getServerAddress := getServerAddress s;
     isAlive := isAlive s;
     isHealthy := isHealthy s;
     getLastHealthCheck := getLastHealthCheck s;
     getWeight := getWeight s;
     getCurrentConnections := c;
     getFailureCount := getFailureCount s |}.

(** [_currentConnections++] *)
Definition incrementConnections (s : t) : t :=
  setCurrentConnections (incr32 (getCurrentConnections s)) s.

(** [decrementConnections] is two atomic operations on
    [_currentConnections]: [current = load()], and then, when
    [current > 0], [_currentConnections--] on what the counter holds by
    then.  [decrementLoaded] is the second one, given the value loaded. *)
Definition decrementLoaded (current : Z) (s : t) : t :=
  if 0 <? current
  then setCurrentConnections (decr32 (getCurrentConnections s)) s
  else s.

(** One caller, with no other operation on the server between its load
    and its decrement. *)
Definition decrementConnections (s : t) : t :=
  decrementLoaded (getCurrentConnections s) s.

(** Two callers of [decrementConnections] on one server.  A caller has
    either just entered, or loaded the counter, or returned; a schedule
    says which caller runs its next atomic operation ([true]: the first
    caller, [false]: the second). *)
Inductive caller : Type :=
| Entered
| Loaded (current : Z)
| Returned.

Definition decrementStep (c : caller) (s : t) : caller * t :=
  match c with
  | Entered => (Loaded (getCurrentConnections s), s)
  | Loaded current => (Returned, decrementLoaded current s)
  | Returned => (Returned, s)
  end.

Fixpoint decrementRun (schedule : list bool) (a b : caller) (s : t)
  : caller * caller * t :=
  match schedule with
  | nil => (a, b, s)
  | cons true rest =>
      let '(a', s') := decrementStep a s in decrementRun rest a' b s'
  | cons false rest =>
      let '(b', s') := decrementStep b s in decrementRun rest a b' s'
  end.

(** [_failureCount++] *)
Definition incrementFailures (s : t) : t :=
  {| getServerAddress := getServerAddress s;
     isAlive := isAlive s;
     isHealthy := isHealthy s;
     getLastHealthCheck := getLastHealthCheck s;
     getWeight := getWeight s;
     getCurrentConnections := getCurrentConnections s;
     getFailureCount := incr32 (getFailureCount s) |}.

(** The state-changing public member functions, as a datatype, so that
    sequences of calls can be quantified over. *)
Inductive op : Type :=
| SetAlive (b : bool)
| SetHealthy (b : bool)
| UpdateLastHealthCheck (now : Z)
| SetWeight (weight : Z)
| IncrementConnections
| DecrementConnections
| IncrementFailures
| ResetFailures
| Assign (other : t).

Definition call (o : op) (s : t) : t :=
  match o with
  | SetAlive b => setAlive b s
  | SetHealthy b => setHealthy b s
  | UpdateLastHealthCheck now => updateLastHealthCheck now s
  | SetWeight w => setWeight w s
  | IncrementConnections => incrementConnections s
  | DecrementConnections => decrementConnections s
  | IncrementFailures => incrementFailures s
  | ResetFailures => resetFailures s
  | Assign other => assign s other
  end.

(** A sequence of calls, first call first. *)
Definition calls (os : list op) (s : t) : t :=
  fold_left (fun acc o => call o acc) os s.

(** The data-model invariant of a target:
    [healthy == true => consecutiveFailures == 0]. *)
Definition healthy_no_failures (s : t) : Prop :=
  isHealthy s = true -> getFailureCount s = 0.

End Server.

(** Pointers to servers and the store they point into.  A
    [std::shared_ptr<Server>] is [Some p] or the null pointer [None]; the
    pool holds non-null pointers only. *)
Definition ServerPtr : Type := nat.
Definition Heap : Type := ServerPtr -> Server.t.

(** ** ping_server.cpp *)

Module PingServer.
Import Machine.

(** *** The pieces of the C++ library that [parseServerAddress] calls *)

(** [std::string::find(char)]: position of the first occurrence, [None]
    for [npos]. *)
Fixpoint find (c : ascii) (s : string) : option nat :=
  match s with
  | EmptyString => None
  | String a rest =>
      if Ascii.eqb a c then Some 0%nat else S <$> find c rest
  end.

(** [s.substr(0, n)]. *)
Fixpoint substr_to (n : nat) (s : string) : string :=
  match n, s with
  | S n', String a rest => String a (substr_to n' rest)
  | _, _ => EmptyString
  end.

(** [s.substr(n)], for [n <= s.size()]. *)
Fixpoint substr_from (n : nat) (s : string) : string :=
  match n, s with
  | S n', String _ rest => substr_from n' rest
  | _, _ => s
  end.

Definition code (a : ascii) : Z := Z.of_N (Ascii.N_of_ascii a).

(** [isspace] in the "C" locale: space, and the controls 9 to 13. *)
Definition isspace (a : ascii) : bool :=
  (code a =? 32) || ((9 <=? code a) && (code a <=? 13)).

Definition digit (a : ascii) : option Z :=
  if (48 <=? code a) && (code a <=? 57) then Some (code a - 48) else None.

Fixpoint skip_spaces (s : string) : string :=
  match s with
  | String a rest => if isspace a then skip_spaces rest else s
  | EmptyString => s
  end.

(** The longest prefix of decimal digits, as a number; [acc] is [None]
    until a digit has been read. *)
Fixpoint read_digits (s : string) (acc : option Z) : option Z :=
  match s with
  | String a rest =>
      match digit a with
      | Some d => read_digits rest (Some (10 * default 0 acc + d))
      | None => acc
      end
  | EmptyString => acc
  end.

Inductive exception : Type :=
| invalid_argument
| out_of_range.

(** [std::stoi(str)] (base 10): leading white space is skipped, an
    optional sign is read, then as many digits as there are; what follows
    the digits is ignored.  It throws [invalid_argument] when there is no
    digit and [out_of_range] when the value is not an [int]. *)
Definition stoi (str : string) : exception + Z :=
  let s1 := skip_spaces str in
  let '(negative, s2) :=
    match s1 with
    | String "-" rest => (true, rest)
    | String "+" rest => (false, rest)
    | _ => (false, s1)
    end in
  match read_digits s2 None with
  | None => inl invalid_argument
  | Some v =>
      let n := if negative then - v else v in
      if (INT_MIN <=? n) && (n <=? INT_MAX) then inr n else inl out_of_range
  end.

(** [bool parseServerAddress(const std::string&, std::string& host,
    int& port)].  The two output parameters are passed in and returned
    with the result, since a failed parse leaves [port] as it was. *)
Definition parseServerAddress (serverAddress : string) (host : string) (port : Z)
  : bool * string * Z :=
  match find ":" serverAddress with
  | None => (true, serverAddress, 80)
  | Some colonPos =>
      let host1 := substr_to colonPos serverAddress in
      match stoi (substr_from (colonPos + 1) serverAddress) with
      | inr p => (true, host1, p)
      | inl _ => (false, host1, port)
      end
  end.

(** *** The prober object *)

Record DNSCacheEntry : Type := mkEntry {
  resolvedIP : string;
  expiryTime : Z
}.

(** The fields of [class PingServer] that the functions below read or
    write.  The stored probe function [_pingImplementation] is given to
    [pingServer] as an argument, and the handle of the background task is
    left out. *)
Record t : Type := mk {
  _timeout : Z;
  _interval : Z;
  _isRunning : bool;
  _threadPoolSize : Z;
  _dnsCache : gmap string DNSCacheEntry;
  _dnsCacheTTL : Z
}.

(** [PingServer(timeout = 1000ms, interval = 5000ms)]. *)
Definition new (timeout interval : Z) : t :=
  {| _timeout := timeout;
     _interval := interval;
     _isRunning := false;
     _threadPoolSize := 4;
     _dnsCache := ∅;
     _dnsCacheTTL := 300 |}.

Definition set_dnsCache (c : gmap string DNSCacheEntry) (this : t) : t :=
  {| _timeout := _timeout this;
     _interval := _interval this;
     _isRunning := _isRunning this;
     _threadPoolSize := _threadPoolSize this;
     _dnsCache := c;
     _dnsCacheTTL := _dnsCacheTTL this |}.

Definition clearDNSCache (this : t) : t := set_dnsCache ∅ this.

Definition setDNSCacheTTL (ttl : Z) (this : t) : t :=
  {| _timeout := _timeout this;
     _interval := _interval this;
     _isRunning := _isRunning this;
     _threadPoolSize := _threadPoolSize this;
     _dnsCache := _dnsCache this;
     _dnsCacheTTL := ttl |}.

(** What the prober sees of the outside: the steady clock, and the log of
    the calls made to the system resolver (latest first). *)
Record World : Type := mkWorld {
  steady_clock_now : Z;
  resolutions : list string
}.

(** The type of [_pingImplementation]: [(address, timeout) -> bool], with
    its effect on the outside. *)
Definition PingImplementation : Type :=
  string -> Z -> World -> bool * World.

Section Resolver.

(** [inet_pton(AF_INET, s, _) == 1]: [s] is a literal IPv4 address. *)
Variable inet_pton4 : string -> bool.
(** The answer of the system resolver, printed by [inet_ntop]; [None]
    when [getaddrinfo] returns an error.  The time one resolution takes. *)
Variable dns_answer : string -> World -> option string.
Variable dns_latency : string -> World -> Z.
(** Ticks of the steady clock in one second. *)
Variable ticks_per_second : Z.

Definition getaddrinfo (hostname : string) (w : World) : option string * World :=
  (dns_answer hostname w,
   {| steady_clock_now := steady_clock_now w + dns_latency hostname w;
      resolutions := hostname :: resolutions w |}).

(** [std::string PingServer::resolveHostname(const std::string&)]. *)
Definition resolveHostname (hostname : string) (this : t) (w : World)
  : string * t * World :=
  if inet_pton4 hostname then (hostname, this, w)
  else
    let hit :=
      match _dnsCache this !! hostname with
      | Some entry =>
          if steady_clock_now w <? expiryTime entry
          then Some (resolvedIP entry) else None
      | None => None
      end in
    match hit with
    | Some ip => (ip, this, w)
    | None =>
        let '(answer, w1) := getaddrinfo hostname w in
        match answer with
        | None => (EmptyString, this, w1)
        | Some ip =>
            let entry :=
              {| resolvedIP := ip;
                 expiryTime := steady_clock_now w1
                               + _dnsCacheTTL this * ticks_per_second |} in
            (ip, set_dnsCache (<[hostname := entry]> (_dnsCache this)) this, w1)
        end
    end.

(** What [defaultPingImplementation] sees of the outside: the world of the
    resolver, and the log of the connections it attempted (latest first),
    each with the address and the port written into [sockaddr_in]. *)
Record Net : Type := mkNet {
  world : World;
  connections : list (string * Z)
}.

(** One connection attempt, from [socket] to [close]: whether the
    non-blocking [connect] completed without error within the timeout, and
    the time the attempt took. *)
Variable tcp_connect : string -> Z -> Z -> Net -> bool.
Variable tcp_latency : string -> Z -> Z -> Net -> Z.

(** [bool PingServer::defaultPingImplementation(const std::string&,
    std::chrono::milliseconds)].  [host] starts empty; [port] starts
    uninitialised and is read only after a successful parse, which sets it.
    [htons(port)] converts the [int] to [uint16_t]. *)
Definition defaultPingImplementation (serverAddress : string) (timeout : Z)
    (this : t) (n : Net) : bool * t * Net :=
  let '(parsed, host, port) := parseServerAddress serverAddress EmptyString 0 in
  if negb parsed then (false, this, n)
  else
    let '(resolvedIP, this1, w1) := resolveHostname host this (world n) in
    match resolvedIP with
    | EmptyString =>
        (false, this1, {| world := w1; connections := connections n |})
    | String _ _ =>
        let sin_port := wrap16 port in
        let n1 := {| world := w1; connections := connections n |} in
        (tcp_connect resolvedIP sin_port timeout n1,
         this1,
         {| world :=
              {| steady_clock_now :=
                   steady_clock_now w1 + tcp_latency resolvedIP sin_port timeout n1;
                 resolutions := resolutions w1 |};
            connections := (resolvedIP, sin_port) :: connections n |})
    end.

End Resolver.

(** The status update that follows a probe, in [pingServer] (and, with the
    same statements, in the workers of [parallelPingImplementation]). *)
Definition updateStatus (result : bool) (now : Z) (s : Server.t) : Server.t :=
  let s1 := Server.setHealthy result s in
  let s2 := Server.updateLastHealthCheck now s1 in
  if negb result then
    let s3 := Server.incrementFailures s2 in
    if 3 <=? Server.getFailureCount s3 then Server.setAlive false s3 else s3
  else
    Server.setAlive true (Server.resetFailures s2).

(** [bool PingServer::pingServer(const std::shared_ptr<Server>&)]. *)
Definition pingServer (_pingImplementation : PingImplementation) (this : t)
    (server : option ServerPtr) (w : World) (h : Heap) : bool * World * Heap :=
  match server with
  | None => (false, w, h)
  | Some p =>
      let '(result, w1) :=
        _pingImplementation (Server.getServerAddress (h p)) (_timeout this) w in
      (result, w1, <[p := updateStatus result (steady_clock_now w1) (h p)]> h)
  end.

(** [n] calls of [pingServer] on the same server, one after the other. *)
Fixpoint pingServerTimes (n : nat) (_pingImplementation : PingImplementation)
    (this : t) (server : option ServerPtr) (w : World) (h : Heap) : World * Heap :=
  match n with
  | O => (w, h)
  | S n' =>
      let '(_, w1, h1) := pingServer _pingImplementation this server w h in
      pingServerTimes n' _pingImplementation this server w1 h1
  end.

End PingServer.

(** ** round_robin_load_balancer.cpp *)

Module LoadBalancer.
Import Machine.

Inductive LoadBalancingStrategy : Type :=
| ROUND_ROBIN
| WEIGHTED_ROUND_ROBIN
| LEAST_CONNECTIONS
| IP_HASH.

(** The base class.  [_pingServer] is a fresh prober at construction and
    plays no part in the operations below. *)
Record t : Type := mk {
  _serversList : list ServerPtr;
  _strategy : LoadBalancingStrategy;
  _healthCheckInterval : Z;
  _maxHealthCheckFailures : Z;
  _healthCheckRunning : bool
}.

Definition new (servers : list ServerPtr) (strategy : LoadBalancingStrategy)
    (healthCheckInterval maxHealthCheckFailures : Z) : t :=
  {| _serversList := servers;
     _strategy := strategy;
     _healthCheckInterval := healthCheckInterval;
     _maxHealthCheckFailures := maxHealthCheckFailures;
     _healthCheckRunning := false |}.

Definition set_serversList (l : list ServerPtr) (this : t) : t :=
  {| _serversList := l;
     _strategy := _strategy this;
     _healthCheckInterval := _healthCheckInterval this;
     _maxHealthCheckFailures := _maxHealthCheckFailures this;
     _healthCheckRunning := _healthCheckRunning this |}.

(** [bool addServer(std::shared_ptr<Server>)]: [std::find_if] on the
    address, then [push_back]. *)
Definition addServer (h : Heap) (server : option ServerPtr) (this : t) : bool * t :=
  match server with
  | None => (false, this)
  | Some p =>
      match list_find
              (fun s => Server.getServerAddress (h s) = Server.getServerAddress (h p))
              (_serversList this) with
      | Some _ => (false, this)
      | None => (true, set_serversList (_serversList this ++ [p]) this)
      end
  end.

(** [bool removeServer(const std::string&)]: erase-remove of the servers
    with that address; the result compares the sizes. *)
Definition removeServer (h : Heap) (serverAddress : string) (this : t) : bool * t :=
  let originalSize := length (_serversList this) in
  let kept :=
    filter (fun s => Server.getServerAddress (h s) ≠ serverAddress)
           (_serversList this) in
  (bool_decide (length kept < originalSize)%nat, set_serversList kept this).

Definition getServers (this : t) : list ServerPtr := _serversList this.

(** [std::count_if]. *)
Fixpoint count_if {A : Type} (pred : A -> bool) (l : list A) : nat :=
  match l with
  | [] => O
  | x :: rest => ((if pred x then 1 else 0) + count_if pred rest)%nat
  end.

Definition getServerCount (this : t) : nat := length (_serversList this).

Definition getHealthyServerCount (h : Heap) (this : t) : nat :=
  count_if (fun server => Server.isAlive (h server) && Server.isHealthy (h server))
           (_serversList this).

(** *** The selection loop

    [RoundRobinLoadBalancer::getNextServer] runs it over [_serversList],
    [WeightedRoundRobinLoadBalancer::getNextServer] runs the same
    statements over [_weightedServersList].  Reading a vector outside its
    bounds is undefined: the functions return [None] there. *)

Inductive scan : Type :=
| Found (index : Z) (server : ServerPtr)
| NotFound (fallbackServer : option ServerPtr).

(** [for (size_t i = 0; i < serverCount; ++i)], with [todo] iterations
    left: the first alive and healthy server, or else the fallback. *)
Fixpoint firstPass (h : Heap) (list : list ServerPtr) (startIndex serverCount : Z)
    (todo : nat) (i : Z) (fallbackServer : option ServerPtr) : option scan :=
  match todo with
  | O => Some (NotFound fallbackServer)
  | S todo' =>
      let index := size_add startIndex i mod serverCount in
      server ← list !! Z.to_nat index;
      if Server.isAlive (h server) then
        if Server.isHealthy (h server) then Some (Found index server)
        else
          firstPass h list startIndex serverCount todo' (i + 1)
                    (match fallbackServer with
                     | None => Some server
                     | Some _ => fallbackServer
                     end)
      else
        firstPass h list startIndex serverCount todo' (i + 1) fallbackServer
  end.

(** The second loop: the first [i] with [list[i] == fallbackServer]. *)
Fixpoint fallbackIndex (list : list ServerPtr) (fallbackServer : ServerPtr)
    (todo : nat) (i : Z) : option (option Z) :=
  match todo with
  | O => Some None
  | S todo' =>
      server ← list !! Z.to_nat i;
      if decide (server = fallbackServer) then Some (Some i)
      else fallbackIndex list fallbackServer todo' (i + 1)
  end.

(** The returned pointer and the value of [_currentServerIndex] after
    the call. *)
Definition select (h : Heap) (list : list ServerPtr) (startIndex : Z)
  : option (option ServerPtr * Z) :=
  let serverCount := Z.of_nat (length list) in
  r ← firstPass h list startIndex serverCount (length list) 0 None;
  match r with
  | Found index server =>
      Some (Some server, size_add index 1 mod serverCount)
  | NotFound (Some fallbackServer) =>
      found ← fallbackIndex list fallbackServer (length list) 0;
      match found with
      | Some i => Some (Some fallbackServer, size_add i 1 mod serverCount)
      | None => Some (Some fallbackServer, startIndex)
      end
  | NotFound None => Some (None, startIndex)
  end.

Inductive exception : Type :=
| invalid_argument (what : string).

End LoadBalancer.

Module RoundRobinLoadBalancer.
Import Machine.

Record t : Type := mk {
  base : LoadBalancer.t;
  _currentServerIndex : Z
}.

Definition set_currentServerIndex (i : Z) (this : t) : t :=
  {| base := base this; _currentServerIndex := i |}.

(** The constructor: the base is built, the index is set to 0, and the
    body throws on an empty list. *)
Definition new (servers : list ServerPtr)
    (healthCheckInterval maxHealthCheckFailures : Z)
  : LoadBalancer.exception + t :=
  let this :=
    {| base := LoadBalancer.new servers LoadBalancer.ROUND_ROBIN
                                healthCheckInterval maxHealthCheckFailures;
       _currentServerIndex := 0 |} in
  match servers with
  | [] => inl (LoadBalancer.invalid_argument "Server list cannot be empty")
  | _ :: _ => inr this
  end.

(** [std::shared_ptr<Server> getNextServer()]: the returned pointer
    ([None] is [nullptr]) and the balancer after the call. *)
Definition getNextServer (h : Heap) (this : t) : option (option ServerPtr * t) :=
  match LoadBalancer._serversList (base this) with
  | [] => Some (None, this)
  | _ :: _ =>
      '(result, index) ← LoadBalancer.select h (LoadBalancer._serversList (base this))
                                             (_currentServerIndex this);
      Some (result, set_currentServerIndex index this)
  end.

(** [n] consecutive calls: the pointers returned, in call order. *)
Fixpoint getNextServers (n : nat) (h : Heap) (this : t)
  : option (list (option ServerPtr) * t) :=
  match n with
  | O => Some ([], this)
  | S n' =>
      '(result, this1) ← getNextServer h this;
      '(results, this2) ← getNextServers n' h this1;
      Some (result :: results, this2)
  end.

(** [void updateCurrentServer()]. *)
Definition updateCurrentServer (this : t) : t :=
  match LoadBalancer._serversList (base this) with
  | [] => this
  | l =>
      set_currentServerIndex
        (size_add (_currentServerIndex this) 1 mod Z.of_nat (length l)) this
  end.

End RoundRobinLoadBalancer.

Module WeightedRoundRobinLoadBalancer.
Import Machine.

Record t : Type := mk {
  base : LoadBalancer.t;
  _currentServerIndex : Z;
  _weightedServersList : list ServerPtr
}.

Definition set_currentServerIndex (i : Z) (this : t) : t :=
  {| base := base this;
     _currentServerIndex := i;
     _weightedServersList := _weightedServersList this |}.

Definition set_weightedServersList (l : list ServerPtr) (this : t) : t :=
  {| base := base this;
     _currentServerIndex := _currentServerIndex this;
     _weightedServersList := l |}.

(** [for (uint32_t i = 0; i < weight; ++i) push_back(server)], with
    [todo] iterations left. *)
Fixpoint pushCopies (todo : nat) (server : ServerPtr) (weighted : list ServerPtr)
  : list ServerPtr :=
  match todo with
  | O => weighted
  | S todo' => pushCopies todo' server (weighted ++ [server])
  end.

(** [void updateWeightedList()]: the list is cleared, then filled from a
    copy of the pool. *)
Definition updateWeightedList (h : Heap) (this : t) : t :=
  let serversCopy := LoadBalancer._serversList (base this) in
  set_weightedServersList
    (fold_left
       (fun weighted server =>
          if Server.isAlive (h server)
          then pushCopies (Z.to_nat (Server.getWeight (h server))) server weighted
          else weighted)
       serversCopy [])
    this.

Definition new (h : Heap) (servers : list ServerPtr)
    (healthCheckInterval maxHealthCheckFailures : Z)
  : LoadBalancer.exception + t :=
  let this :=
    {| base := LoadBalancer.new servers LoadBalancer.WEIGHTED_ROUND_ROBIN
                                healthCheckInterval maxHealthCheckFailures;
       _currentServerIndex := 0;
       _weightedServersList := [] |} in
  match servers with
  | [] => inl (LoadBalancer.invalid_argument "Server list cannot be empty")
  | _ :: _ => inr (updateWeightedList h this)
  end.

Definition getNextServer (h : Heap) (this : t) : option (option ServerPtr * t) :=
  let this1 :=
    match _weightedServersList this with
    | [] => updateWeightedList h this
    | _ :: _ => this
    end in
  match _weightedServersList this1 with
  | [] => Some (None, this1)
  | _ :: _ =>
      '(result, index) ← LoadBalancer.select h (_weightedServersList this1)
                                             (_currentServerIndex this1);
      Some (result, set_currentServerIndex index this1)
  end.

(** [n] consecutive calls: the pointers returned, in call order. *)
Fixpoint getNextServers (n : nat) (h : Heap) (this : t)
  : option (list (option ServerPtr) * t) :=
  match n with
  | O => Some ([], this)
  | S n' =>
      '(result, this1) ← getNextServer h this;
      '(results, this2) ← getNextServers n' h this1;
      Some (result :: results, this2)
  end.

End WeightedRoundRobinLoadBalancer.

(** ** Notions of the specification *)

Module Spec.

(** A target that selection prefers: alive and healthy. *)
Definition usable (h : Heap) (p : ServerPtr) : bool :=
  Server.isAlive (h p) && Server.isHealthy (h p).

(** The pool index that a scan started at cursor [c] visits at its step
    [i], in a pool of [n] targets. *)
Definition slot (c : Z) (n : nat) (i : nat) : nat :=
  Z.to_nat ((c + Z.of_nat i) mod Z.of_nat n).

(** The cursor and the pool size are sizes of vectors: the cursor is 0 or
    was computed modulo the size of a pool.  The index arithmetic of a scan
    then stays inside [size_t]. *)
Definition cursor_fits (c : Z) (n : nat) : Prop :=
  0 <= c <= Machine.PTRDIFF_MAX /\ Z.of_nat n <= Machine.PTRDIFF_MAX.

(** The expansion list as the specification words it: each alive target
    of the pool, in pool order, [weight] consecutive times. *)
Definition expansion (h : Heap) (pool : list ServerPtr) : list ServerPtr :=
  p ← pool;
  if Server.isAlive (h p)
  then replicate (Z.to_nat (Server.getWeight (h p))) p
  else [].

(** Some target of the pool has this address. *)
Definition present (h : Heap) (address : string) (pool : list ServerPtr) : Prop :=
  exists q, q ∈ pool /\ Server.getServerAddress (h q) = address.

(** No character of the string is a colon. *)
Definition no_colon (s : string) : Prop :=
  forallb (fun a => negb (Ascii.eqb a ":")) (String.list_ascii_of_string s) = true.

(** What parsing must give once the address is cut into [host], a colon
    and [rest]: the port is [rest] read as a number, and a [rest] that
    cannot be read is a [false] result. *)
Definition parsed_as (host rest : string) (r : bool * string * Z) : Prop :=
  match PingServer.stoi rest with
  | inr port => r = (true, host, port)
  | inl _ => r.1.1 = false
  end.

(** The address is split at its last colon. *)
Definition splits_at_last_colon (address : string) : Prop :=
  forall host rest host0 port0,
    address = host +:+ ":" +:+ rest -> no_colon rest ->
    parsed_as host rest (PingServer.parseServerAddress address host0 port0).

(** The address is split at its first colon. *)
Definition splits_at_first_colon (address : string) : Prop :=
  forall host rest host0 port0,
    address = host +:+ ":" +:+ rest -> no_colon host ->
    parsed_as host rest (PingServer.parseServerAddress address host0 port0).

(** The calls that keep [healthy => failures = 0] whatever the server:
    all but [incrementFailures], and an assignment from a server that
    satisfies it. *)
Definition keeps_invariant (o : Server.op) : Prop :=
  match o with
  | Server.IncrementFailures => False
  | Server.Assign other => Server.healthy_no_failures other
  | _ => True
  end.

(** The cache has nothing usable for [hostname] at the time of [w]: no
    entry, or an entry whose expiry is not in the future. *)
Definition stale (this : PingServer.t) (hostname : string) (w : PingServer.World)
  : Prop :=
  PingServer._dnsCache this !! hostname = None \/
  exists entry, PingServer._dnsCache this !! hostname = Some entry
                /\ PingServer.expiryTime entry <= PingServer.steady_clock_now w.

(** Two balancers differ in their pool at most. *)
Definition same_configuration (a b : LoadBalancer.t) : Prop :=
  LoadBalancer._strategy a = LoadBalancer._strategy b /\
  LoadBalancer._healthCheckInterval a = LoadBalancer._healthCheckInterval b /\
  LoadBalancer._maxHealthCheckFailures a = LoadBalancer._maxHealthCheckFailures b /\
  LoadBalancer._healthCheckRunning a = LoadBalancer._healthCheckRunning b.

(** No two targets of the pool have the same address. *)
Definition unique_addresses (h : Heap) (pool : list ServerPtr) : Prop :=
  NoDup ((fun q => Server.getServerAddress (h q)) <$> pool).

(** How many times a pointer occurs in a list. *)
Definition occurrences (p : ServerPtr) (l : list ServerPtr) : nat :=
  length (filter (fun q => q = p) l).

(** Every character is a decimal digit. *)
Definition all_digits (s : string) : Prop :=
  forallb (fun a => match PingServer.digit a with Some _ => true | None => false end)
          (String.list_ascii_of_string s) = true.

(** The string does not begin with a decimal digit. *)
Definition no_leading_digit (s : string) : Prop :=
  match s with
  | EmptyString => True
  | String a _ => PingServer.digit a = None
  end.

End Spec.

(** * Properties *)

(** ** Targets *)

Section ServerProperties.
Import Machine Server.

Lemma decr32_pos z : is_uint32 z -> 0 < z -> decr32 z = z - 1.
Proof.
  unfold is_uint32, UINT32_MAX, decr32, wrap32. intros Hz Hpos.
  apply Z.mod_small. lia.
Qed.

Lemma incr32_below z : 0 <= z < UINT32_MAX -> incr32 z = z + 1.
Proof.
  unfold UINT32_MAX, incr32, wrap32. intros Hz.
  apply Z.mod_small. lia.
Qed.

(** One caller at a time: [decrementConnections] does not take the
    connection counter below zero.  On a count of 0 it leaves 0, on a
    positive count it takes exactly one off, and in neither case does the
    counter come out as [2^32 - 1]; no other field changes. *)
Theorem decrementConnections_no_underflow (s : Server.t) :
  is_uint32 (getCurrentConnections s) ->
  (getCurrentConnections s = 0 ->
     getCurrentConnections (decrementConnections s) = 0) /\
  (0 < getCurrentConnections s ->
     getCurrentConnections (decrementConnections s)
     = getCurrentConnections s - 1) /\
  getCurrentConnections (decrementConnections s) <> UINT32_MAX /\
  is_uint32 (getCurrentConnections (decrementConnections s)) /\
  setCurrentConnections (getCurrentConnections s) (decrementConnections s)
  = setCurrentConnections (getCurrentConnections s) s.
Proof.
  intros Hrange. unfold decrementConnections, decrementLoaded.
  destruct (Z.ltb_spec 0 (getCurrentConnections s)) as [Hpos | Hzero]; cbn.
  - rewrite (decr32_pos _ Hrange Hpos).
    unfold is_uint32, UINT32_MAX in *. repeat split; try lia.
  - unfold is_uint32, UINT32_MAX in *. repeat split; try lia.
Qed.

Lemma decrementConnections_no_underflow_witness :
  getCurrentConnections (decrementConnections (Server.new "10.0.0.1:80" 1 0)) = 0
  /\ getCurrentConnections
       (decrementConnections (incrementConnections (Server.new "10.0.0.1:80" 1 0)))
     = 0.
Proof.
  split.
  - apply (decrementConnections_no_underflow (Server.new "10.0.0.1:80" 1 0)).
    + unfold is_uint32, UINT32_MAX. cbn. lia.
    + reflexivity.
  - pose proof (decrementConnections_no_underflow
                  (incrementConnections (Server.new "10.0.0.1:80" 1 0))) as H.
    destruct H as (_ & Hdec & _).
    + unfold is_uint32, UINT32_MAX. vm_compute. split; discriminate.
    + rewrite Hdec; [reflexivity | reflexivity].
Defined.

(** C10.  The guard of [decrementConnections] does not hold against a
    second caller.  On a server with one connection: one caller alone, and
    two callers one after the other, leave a count of 0; but when both
    callers load the counter before either decrements, both see 1, both
    pass [current > 0], and the second decrement takes the counter from 0
    to [2^32 - 1]. *)
Theorem decrementConnections_underflow_when_interleaved (s : Server.t) :
  let one := setCurrentConnections 1 s in
  decrementRun [true; true] Entered Entered one
  = (Returned, Entered, decrementConnections one) /\
  getCurrentConnections (decrementConnections one) = 0 /\
  decrementRun [true; true; false; false] Entered Entered one
  = (Returned, Returned, decrementConnections (decrementConnections one)) /\
  getCurrentConnections (decrementConnections (decrementConnections one)) = 0 /\
  (decrementRun [true; false; true; false] Entered Entered one).1
  = (Returned, Returned) /\
  getCurrentConnections
    (decrementRun [true; false; true; false] Entered Entered one).2
  = UINT32_MAX.
Proof.
  cbn zeta. split_and!; reflexivity.
Qed.

End ServerProperties.

Section ServerInvariant.
Import Machine Server.

Lemma call_keeps_invariant (o : Server.op) (s : Server.t) :
  healthy_no_failures s -> Spec.keeps_invariant o ->
  healthy_no_failures (call o s).
Proof.
  unfold healthy_no_failures.
  destruct o as [b | b | now | w | | | | | other]; cbn; intros Hinv Hkeep; try tauto.
  - destruct b; cbn; [reflexivity | discriminate].
  - unfold decrementConnections, decrementLoaded.
    destruct (0 <? getCurrentConnections s); cbn; exact Hinv.
  - exact Hkeep.
Qed.

Lemma updateStatus_invariant (result : bool) (now : Z) (s : Server.t) :
  healthy_no_failures (PingServer.updateStatus result now s).
Proof.
  unfold healthy_no_failures, PingServer.updateStatus.
  destruct result; cbn; [reflexivity |].
  destruct (3 <=? incr32 (getFailureCount s)); cbn; discriminate.
Qed.

(** C7, as stated, fails: a new server made healthy and then passed to
    [incrementFailures] is healthy with a failure count of 1. *)
Lemma healthy_with_failures_after_incrementFailures :
  let s := Server.new "10.0.0.1:80" 1 0 in
  let s' := calls [SetHealthy true; IncrementFailures] s in
  healthy_no_failures s /\
  isHealthy s' = true /\ getFailureCount s' = 1 /\
  ~ healthy_no_failures s'.
Proof.
  cbn. repeat split.
  unfold healthy_no_failures. cbn. intros H. specialize (H eq_refl). discriminate H.
Qed.

(** Two status updates that overlap on one server: the failing one sets
    healthy to false, the succeeding one then runs whole, and the failing
    one goes on to count its failure.  The server ends healthy with one
    failure. *)
Lemma overlapping_status_updates (now1 now2 : Z) (s : Server.t) :
  let s' :=
    calls [SetHealthy false;
           SetHealthy true; UpdateLastHealthCheck now2; ResetFailures; SetAlive true;
           UpdateLastHealthCheck now1; IncrementFailures] s in
  isHealthy s' = true /\ getFailureCount s' = 1.
Proof. cbn. split; reflexivity. Qed.

(** C7, amended.  Setting healthy to true resets the failure count.  A new
    server satisfies [healthy => failures = 0], and a copy satisfies it
    exactly when the server copied does.  One call at a time, every public
    operation other than [incrementFailures] preserves it (an assignment
    when the server assigned from satisfies it), alone or in sequence, and
    [incrementFailures] preserves it on a server that is not healthy.  One
    call of [pingServer] that runs alone, its status update not interleaved
    with another operation on the server, leaves the server satisfying it,
    whatever the probe answered. *)
Theorem healthy_no_failures_kept :
  (forall s, isHealthy (setHealthy true s) = true
             /\ getFailureCount (setHealthy true s) = 0) /\
  (forall address weight now, healthy_no_failures (Server.new address weight now)) /\
  (forall s, healthy_no_failures (Server.copy s) <-> healthy_no_failures s) /\
  (forall o s, healthy_no_failures s -> Spec.keeps_invariant o ->
               healthy_no_failures (call o s)) /\
  (forall os s, healthy_no_failures s -> Forall Spec.keeps_invariant os ->
                healthy_no_failures (calls os s)) /\
  (forall s, isHealthy s = false -> healthy_no_failures (incrementFailures s)) /\
  (forall result now s, healthy_no_failures (PingServer.updateStatus result now s)) /\
  (forall impl this p w h,
     healthy_no_failures ((PingServer.pingServer impl this (Some p) w h).2 p)).
Proof.
  split_and!.
  - intros s. split; reflexivity.
  - intros address weight now. unfold healthy_no_failures. cbn. discriminate.
  - intros s. unfold healthy_no_failures. cbn. reflexivity.
  - exact call_keeps_invariant.
  - intros os. induction os as [| o os IH]; intros s Hinv Hall; cbn.
    + exact Hinv.
    + inversion Hall as [| ? ? Ho Hos]; subst.
      apply IH; [apply call_keeps_invariant; assumption | assumption].
  - intros s Hs. unfold healthy_no_failures. cbn. rewrite Hs. discriminate.
  - exact updateStatus_invariant.
  - intros impl this p w h. unfold PingServer.pingServer.
    destruct (impl (getServerAddress (h p)) (PingServer._timeout this) w)
      as [result w1].
    cbn [snd]. unfold insert, fn_insert.
    destruct (decide (p = p)) as [_ | Hne]; [| congruence].
    apply updateStatus_invariant.
Qed.

Lemma healthy_no_failures_kept_witness :
  healthy_no_failures
    (calls [SetHealthy true; IncrementConnections; SetAlive false]
           (Server.new "10.0.0.1:80" 1 0)).
Proof.
  destruct healthy_no_failures_kept as (_ & Hnew & _ & _ & Hcalls & _).
  apply Hcalls.
  - apply Hnew.
  - repeat constructor.
Defined.

End ServerInvariant.

(** ** The prober *)

Section Probing.
Import Machine Server PingServer.

Lemma heap_lookup_insert (h : Heap) (p : ServerPtr) (s : Server.t) :
  (<[p := s]> h) p = s.
Proof. apply fn_lookup_insert. Qed.

Lemma heap_lookup_insert_ne (h : Heap) (p q : ServerPtr) (s : Server.t) :
  p <> q -> (<[p := s]> h) q = h q.
Proof. apply fn_lookup_insert_ne. Qed.

Lemma pingServer_unfold (impl : PingImplementation) (this : PingServer.t)
    (p : ServerPtr) (w : World) (h : Heap) :
  pingServer impl this (Some p) w h
  = ((impl (getServerAddress (h p)) (_timeout this) w).1,
     (impl (getServerAddress (h p)) (_timeout this) w).2,
     <[p := updateStatus (impl (getServerAddress (h p)) (_timeout this) w).1
                         (steady_clock_now
                            (impl (getServerAddress (h p)) (_timeout this) w).2)
                         (h p)]> h).
Proof.
  unfold pingServer.
  destruct (impl (getServerAddress (h p)) (_timeout this) w) as [result w1].
  reflexivity.
Qed.

Lemma updateStatus_address (result : bool) (now : Z) (s : Server.t) :
  getServerAddress (updateStatus result now s) = getServerAddress s.
Proof.
  unfold updateStatus. destruct result; cbn; [reflexivity |].
  destruct (3 <=? incr32 (getFailureCount s)); reflexivity.
Qed.

Lemma updateStatus_failure (now : Z) (s : Server.t) :
  isHealthy (updateStatus false now s) = false /\
  getFailureCount (updateStatus false now s) = incr32 (getFailureCount s) /\
  isAlive (updateStatus false now s)
  = (if 3 <=? incr32 (getFailureCount s) then false else isAlive s).
Proof.
  unfold updateStatus. cbn.
  destruct (3 <=? incr32 (getFailureCount s)); cbn; repeat split.
Qed.

Section FailingProbes.
Variable impl : PingImplementation.
Variable this : PingServer.t.
Variable p : ServerPtr.
Hypothesis impl_fails : forall address timeout w, (impl address timeout w).1 = false.

Lemma pingServerTimes_S (n : nat) (w : World) (h : Heap) :
  exists now,
    pingServerTimes (S n) impl this (Some p) w h
    = pingServerTimes n impl this (Some p)
        (impl (getServerAddress (h p)) (_timeout this) w).2
        (<[p := updateStatus false now (h p)]> h).
Proof.
  eexists. cbn [pingServerTimes].
  rewrite pingServer_unfold, impl_fails. reflexivity.
Qed.

(** Failing probes count up. *)
Lemma failing_probes_count (n : nat) : forall w h,
  0 <= getFailureCount (h p) ->
  getFailureCount (h p) + Z.of_nat n <= UINT32_MAX ->
  getFailureCount ((pingServerTimes n impl this (Some p) w h).2 p)
  = getFailureCount (h p) + Z.of_nat n.
Proof.
  induction n as [| n IH]; intros w h Hlow Hhigh.
  - cbn. lia.
  - destruct (pingServerTimes_S n w h) as [now ->].
    destruct (updateStatus_failure now (h p)) as (_ & Hcount & _).
    rewrite incr32_below in Hcount by lia.
    rewrite IH; rewrite ?heap_lookup_insert, ?Hcount; lia.
Qed.

(** A server that is not alive stays so under failing probes. *)
Lemma failing_probes_dead (n : nat) : forall w h,
  isAlive (h p) = false ->
  isAlive ((pingServerTimes n impl this (Some p) w h).2 p) = false.
Proof.
  induction n as [| n IH]; intros w h Hdead.
  - exact Hdead.
  - destruct (pingServerTimes_S n w h) as [now ->].
    apply IH. rewrite heap_lookup_insert.
    destruct (updateStatus_failure now (h p)) as (_ & _ & Halive).
    rewrite Halive, Hdead. destruct (3 <=? _); reflexivity.
Qed.

(** An alive server below the threshold is alive after [n] failing probes
    exactly when its count is still below 3. *)
Lemma failing_probes_alive (n : nat) : forall w h,
  isAlive (h p) = true ->
  0 <= getFailureCount (h p) < 3 ->
  isAlive ((pingServerTimes n impl this (Some p) w h).2 p)
  = negb (3 <=? getFailureCount (h p) + Z.of_nat n).
Proof.
  induction n as [| n IH]; intros w h Halive Hcount.
  - cbn. rewrite Z.add_0_r, Halive.
    destruct (Z.leb_spec 3 (getFailureCount (h p))); [lia | reflexivity].
  - destruct (pingServerTimes_S n w h) as [now ->].
    destruct (updateStatus_failure now (h p)) as (_ & Hc & Ha).
    assert (Hinc : incr32 (getFailureCount (h p)) = getFailureCount (h p) + 1)
      by (apply incr32_below; unfold UINT32_MAX; lia).
    rewrite Hinc in Hc, Ha.
    destruct (Z.leb_spec 3 (getFailureCount (h p) + 1)) as [Hge | Hlt].
    + rewrite failing_probes_dead by (rewrite heap_lookup_insert; exact Ha).
      destruct (Z.leb_spec 3 (getFailureCount (h p) + Z.of_nat (S n)));
        [reflexivity | lia].
    + rewrite IH; rewrite heap_lookup_insert.
      * rewrite Hc. f_equal. f_equal. lia.
      * rewrite Ha. exact Halive.
      * rewrite Hc. lia.
Qed.

End FailingProbes.

(** C2. After [pingServer] on a non-null server, the call returns the
    result of the probe; on success the server is healthy, its failure count
    is 0 and it is alive; on failure it is not healthy, its failure count is
    the old one plus one (in [uint32_t], so literally [old + 1] below the
    maximum), and it is made not alive exactly when the new count is at
    least 3, keeping its former flag otherwise.  No other server changes.
    From an alive server with no failure, two failed probes in a row leave
    it alive and the third makes it not alive. *)
Theorem pingServer_status (impl : PingImplementation) (this : PingServer.t)
    (p : ServerPtr) (w : World) (h : Heap) :
  let probe := (impl (getServerAddress (h p)) (_timeout this) w).1 in
  let out := pingServer impl this (Some p) w h in
  let s := out.2 p in
  out.1.1 = probe /\
  (probe = true ->
     isHealthy s = true /\ getFailureCount s = 0 /\ isAlive s = true) /\
  (probe = false ->
     isHealthy s = false /\
     getFailureCount s = incr32 (getFailureCount (h p)) /\
     (0 <= getFailureCount (h p) < UINT32_MAX ->
        getFailureCount s = getFailureCount (h p) + 1) /\
     isAlive s = (if 3 <=? getFailureCount s then false else isAlive (h p))) /\
  (forall q, q <> p -> out.2 q = h q) /\
  ((forall address timeout w', (impl address timeout w').1 = false) ->
   isAlive (h p) = true -> getFailureCount (h p) = 0 ->
   isAlive ((pingServerTimes 1 impl this (Some p) w h).2 p) = true /\
   isAlive ((pingServerTimes 2 impl this (Some p) w h).2 p) = true /\
   isAlive ((pingServerTimes 3 impl this (Some p) w h).2 p) = false).
Proof.
  cbn zeta. rewrite pingServer_unfold. cbn [fst snd].
  rewrite heap_lookup_insert.
  set (probe := (impl (getServerAddress (h p)) (_timeout this) w).1).
  set (now := steady_clock_now _).
  repeat apply conj.
  - reflexivity.
  - intros ->. repeat split.
  - intros ->. destruct (updateStatus_failure now (h p)) as (Hh & Hc & Ha).
    repeat apply conj; [exact Hh | exact Hc | | rewrite Hc; exact Ha].
    intros Hrange. rewrite Hc. apply incr32_below. exact Hrange.
  - intros q Hq. apply heap_lookup_insert_ne. congruence.
  - intros Hfail Halive Hzero.
    rewrite !(failing_probes_alive impl this p Hfail) by (rewrite ?Hzero; auto; lia).
    rewrite Hzero. repeat split.
Qed.

Lemma pingServer_status_witness :
  let impl : PingImplementation := fun _ _ w => (false, w) in
  let this := PingServer.new 1000 5000 in
  let h : Heap := fun _ => Server.new "10.0.0.1:80" 1 0 in
  let w := {| steady_clock_now := 7; resolutions := [] |} in
  isAlive ((pingServerTimes 2 impl this (Some 0%nat) w h).2 0%nat) = true /\
  isAlive ((pingServerTimes 3 impl this (Some 0%nat) w h).2 0%nat) = false.
Proof.
  intros impl this h w.
  destruct (pingServer_status impl this 0%nat w h) as (_ & _ & _ & _ & H).
  destruct H as (_ & H2 & H3); [reflexivity | reflexivity | reflexivity |].
  split; [exact H2 | exact H3].
Defined.

End Probing.

(** ** Address parsing *)

Section AddressParsing.
Import Machine PingServer.

Lemma find_no_colon (s : string) : Spec.no_colon s -> find ":" s = None.
Proof.
  unfold Spec.no_colon. induction s as [| a s IH]; cbn; intros Hno.
  - reflexivity.
  - apply andb_true_iff in Hno as [Ha Hs].
    destruct (Ascii.eqb a ":"); [discriminate Ha |].
    rewrite (IH Hs). reflexivity.
Qed.

Lemma find_colon_app (host rest : string) :
  Spec.no_colon host ->
  find ":" (host +:+ ":" +:+ rest) = Some (String.length host).
Proof.
  unfold Spec.no_colon. induction host as [| a host IH]; intros Hno.
  - reflexivity.
  - change (String a host +:+ ":" +:+ rest) with (String a (host +:+ ":" +:+ rest)).
    cbn in Hno. apply andb_true_iff in Hno as [Ha Hs].
    cbn [find String.length].
    destruct (Ascii.eqb a ":"); [discriminate Ha |].
    rewrite (IH Hs). reflexivity.
Qed.

Lemma substr_to_app (host rest : string) :
  substr_to (String.length host) (host +:+ rest) = host.
Proof.
  induction host as [| a host IH].
  - destruct rest; reflexivity.
  - change (String a host +:+ rest) with (String a (host +:+ rest)).
    cbn [substr_to String.length]. rewrite IH. reflexivity.
Qed.

Lemma substr_from_app (host rest : string) :
  substr_from (String.length host) (host +:+ rest) = rest.
Proof.
  induction host as [| a host IH].
  - destruct rest; reflexivity.
  - change (String a host +:+ rest) with (String a (host +:+ rest)).
    cbn [substr_from String.length]. exact IH.
Qed.

Lemma substr_from_after_colon (host rest : string) :
  substr_from (String.length host + 1) (host +:+ ":" +:+ rest) = rest.
Proof.
  induction host as [| a host IH].
  - destruct rest; reflexivity.
  - change (String a host +:+ ":" +:+ rest) with (String a (host +:+ ":" +:+ rest)).
    cbn [substr_from String.length Nat.add]. exact IH.
Qed.

(** C6, as stated, fails: with two colons in the address the code cuts at
    the first one, so the bracketed host below loses all but its first
    character and the port that follows the last colon is never read. *)
Lemma parseServerAddress_not_at_last_colon :
  parseServerAddress "[::1]:8080" "" 0 = (false, "[", 0) /\
  ~ Spec.splits_at_last_colon "[::1]:8080".
Proof.
  split; [reflexivity |].
  intros Hlast.
  specialize (Hlast "[::1]" "8080" "" 0 eq_refl eq_refl).
  vm_compute in Hlast. discriminate Hlast.
Qed.

(** C6, amended: the address is split at its first colon.  Without a colon
    the host is the whole string and the port is 80.  With one, the host is
    what precedes the first colon and what follows it is read as a number
    by [stoi]; when [stoi] throws, the result is [false] (with the port left
    as it was), and no exception leaves the function. *)
Theorem parseServerAddress_first_colon (address : string) :
  (Spec.no_colon address ->
   forall host0 port0,
     parseServerAddress address host0 port0 = (true, address, 80)) /\
  Spec.splits_at_first_colon address /\
  (forall host rest host0 port0 e,
     address = host +:+ ":" +:+ rest -> Spec.no_colon host ->
     stoi rest = inl e ->
     parseServerAddress address host0 port0 = (false, host, port0)).
Proof.
  repeat apply conj.
  - intros Hno host0 port0. unfold parseServerAddress.
    rewrite (find_no_colon address Hno). reflexivity.
  - intros host rest host0 port0 -> Hno.
    unfold Spec.parsed_as, parseServerAddress.
    rewrite (find_colon_app host rest Hno), substr_to_app,
      substr_from_after_colon.
    destruct (stoi rest); reflexivity.
  - intros host rest host0 port0 e -> Hno Hstoi.
    unfold parseServerAddress.
    rewrite (find_colon_app host rest Hno), substr_to_app,
      substr_from_after_colon, Hstoi.
    reflexivity.
Qed.

Lemma parseServerAddress_first_colon_witness :
  parseServerAddress "example.org" "" 0 = (true, "example.org", 80) /\
  parseServerAddress "example.org:8080" "" 0 = (true, "example.org", 8080) /\
  parseServerAddress "example.org:http" "" 0 = (false, "example.org", 0).
Proof.
  repeat apply conj.
  - apply (parseServerAddress_first_colon "example.org"). reflexivity.
  - destruct (parseServerAddress_first_colon "example.org:8080") as (_ & H & _).
    exact (H "example.org" "8080" "" 0 eq_refl eq_refl).
  - destruct (parseServerAddress_first_colon "example.org:http") as (_ & _ & H).
    exact (H "example.org" "http" "" 0 invalid_argument eq_refl eq_refl eq_refl).
Defined.

End AddressParsing.

(** ** The resolver cache *)

Section Resolution.
Import Machine PingServer.

Variable inet_pton4 : string -> bool.
Variable dns_answer : string -> World -> option string.
Variable dns_latency : string -> World -> Z.
Variable ticks_per_second : Z.

Lemma resolveHostname_literal (hostname : string) (this : PingServer.t) (w : World) :
  inet_pton4 hostname = true ->
  resolveHostname inet_pton4 dns_answer dns_latency ticks_per_second hostname this w
  = (hostname, this, w).
Proof. unfold resolveHostname. intros ->. reflexivity. Qed.

Lemma resolveHostname_hit (hostname : string) (this : PingServer.t) (w : World)
    (entry : DNSCacheEntry) :
  inet_pton4 hostname = false ->
  _dnsCache this !! hostname = Some entry ->
  steady_clock_now w < expiryTime entry ->
  resolveHostname inet_pton4 dns_answer dns_latency ticks_per_second hostname this w
  = (resolvedIP entry, this, w).
Proof.
  unfold resolveHostname. intros -> -> Hfresh.
  destruct (Z.ltb_spec (steady_clock_now w) (expiryTime entry)); [reflexivity | lia].
Qed.

Lemma resolveHostname_miss (hostname : string) (this : PingServer.t) (w : World) :
  inet_pton4 hostname = false ->
  Spec.stale this hostname w ->
  resolveHostname inet_pton4 dns_answer dns_latency ticks_per_second hostname this w
  = let w1 := (getaddrinfo dns_answer dns_latency hostname w).2 in
    match dns_answer hostname w with
    | Some ip =>
        (ip,
         set_dnsCache
           (<[hostname := {| resolvedIP := ip;
                             expiryTime := steady_clock_now w1
                                           + _dnsCacheTTL this * ticks_per_second |}]>
              (_dnsCache this)) this,
         w1)
    | None => (EmptyString, this, w1)
    end.
Proof.
  unfold resolveHostname, Spec.stale. intros -> Hstale.
  assert (Hnone :
            match _dnsCache this !! hostname with
            | Some entry =>
                if steady_clock_now w <? expiryTime entry
                then Some (resolvedIP entry) else None
            | None => None
            end = None).
  { destruct Hstale as [-> | (entry & -> & Hexp)]; [reflexivity |].
    destruct (Z.ltb_spec (steady_clock_now w) (expiryTime entry)); [lia | reflexivity]. }
  rewrite Hnone. cbn. destruct (dns_answer hostname w); reflexivity.
Qed.


(** Two resolutions of one hostname: after a first one that had to ask the
    resolver and got an answer, a second one made before the expiry is
    served from the cache and leaves the log of resolver calls as it is,
    and one made at or after the expiry asks the resolver again. *)
Lemma resolveHostname_twice (hostname ip : string) (this : PingServer.t)
    (w w' : World) :
  inet_pton4 hostname = false ->
  Spec.stale this hostname w ->
  dns_answer hostname w = Some ip ->
  let first :=
    resolveHostname inet_pton4 dns_answer dns_latency ticks_per_second
                    hostname this w in
  let second :=
    resolveHostname inet_pton4 dns_answer dns_latency ticks_per_second
                    hostname first.1.2 w' in
  let expiry := steady_clock_now first.2 + _dnsCacheTTL this * ticks_per_second in
  (steady_clock_now w' < expiry ->
   second = (ip, first.1.2, w')) /\
  (expiry <= steady_clock_now w' ->
   resolutions second.2 = hostname :: resolutions w').
Proof.
  intros Hlit Hstale Hans. cbn zeta.
  rewrite (resolveHostname_miss _ _ _ Hlit Hstale), Hans. cbn [fst snd].
  set (entry := {| resolvedIP := ip; expiryTime := _ |}).
  split.
  - intros Hfresh.
    rewrite (resolveHostname_hit hostname _ w' entry Hlit).
    + reflexivity.
    + cbn. apply lookup_insert_eq.
    + exact Hfresh.
  - intros Hold.
    rewrite (resolveHostname_miss hostname _ w' Hlit).
    + destruct (dns_answer hostname w'); reflexivity.
    + right. exists entry. split; [cbn; apply lookup_insert_eq | exact Hold].
Qed.

End Resolution.


(** ** The pool *)

Section Pool.
Import Machine LoadBalancer.

Lemma set_serversList_same (this : LoadBalancer.t) :
  set_serversList (_serversList this) this = this.
Proof. destruct this; reflexivity. Qed.

Lemma absent_filter (h : Heap) (address : string) (pool : list ServerPtr) :
  ~ Spec.present h address pool ->
  filter (fun s => Server.getServerAddress (h s) ≠ address) pool = pool.
Proof.
  unfold Spec.present. induction pool as [| q pool IH]; intros Habs.
  - reflexivity.
  - rewrite filter_cons. destruct (decide (Server.getServerAddress (h q) ≠ address))
      as [Hne | Heq].
    + f_equal. apply IH. intros (r & Hr & Hra). apply Habs. exists r.
      split; [right; exact Hr | exact Hra].
    + exfalso. apply Habs. exists q. split; [left |].
      destruct (decide (Server.getServerAddress (h q) = address)); tauto.
Qed.

(** C9. [addServer] of a server whose address the pool already has returns
    false and leaves the pool as it is, and otherwise appends the server
    and returns true (a null pointer is no server: it is refused);
    [removeServer] with an address that the pool does not have returns
    false and leaves the pool as it is, and otherwise returns true and
    keeps, in their order, exactly the servers with another address.  The
    pool is read from the balancer that the call leaves, whose other fields
    are as they were. *)
Theorem addServer_removeServer (h : Heap) (this : LoadBalancer.t) :
  addServer h None this = (false, this) /\
  (forall p,
     Spec.present h (Server.getServerAddress (h p)) (_serversList this) ->
     addServer h (Some p) this = (false, this)) /\
  (forall p,
     ~ Spec.present h (Server.getServerAddress (h p)) (_serversList this) ->
     exists this',
       addServer h (Some p) this = (true, this') /\
       _serversList this' = _serversList this ++ [p] /\
       Spec.same_configuration this' this) /\
  (forall address,
     ~ Spec.present h address (_serversList this) ->
     removeServer h address this = (false, this)) /\
  (forall address,
     Spec.present h address (_serversList this) ->
     exists this',
       removeServer h address this = (true, this') /\
       _serversList this'
       = filter (fun s => Server.getServerAddress (h s) ≠ address)
                (_serversList this) /\
       ~ Spec.present h address (_serversList this') /\
       (forall q, q ∈ _serversList this' <->
                  q ∈ _serversList this /\ Server.getServerAddress (h q) ≠ address) /\
       _serversList this' `sublist_of` _serversList this /\
       (length (_serversList this') < length (_serversList this))%nat /\
       Spec.same_configuration this' this).
Proof.
  split_and!.
  - reflexivity.
  - intros p (q & Hq & Haddr). unfold addServer.
    destruct (list_find _ _) as [[i x] |] eqn:Hfind; [reflexivity |].
    apply list_find_None in Hfind. rewrite list.Forall_forall in Hfind.
    destruct (Hfind q Hq Haddr).
  - intros p Habs. unfold addServer.
    destruct (list_find _ _) as [[i x] |] eqn:Hfind.
    + apply list_find_Some in Hfind as (Hix & Haddr & _).
      exfalso. apply Habs. exists x. split; [| exact Haddr].
      apply list_elem_of_lookup_2 in Hix. exact Hix.
    + eexists. split_and!; [reflexivity | reflexivity | repeat split].
  - intros address Habs. unfold removeServer.
    rewrite (absent_filter h address _ Habs), set_serversList_same.
    rewrite bool_decide_eq_false_2 by lia. reflexivity.
  - intros address (q & Hq & Haddr). unfold removeServer.
    assert (Hshorter :
              (length (filter (fun s => Server.getServerAddress (h s) ≠ address)
                              (_serversList this))
               < length (_serversList this))%nat).
    { apply (length_filter_lt _ _ q Hq). intros Hne. exact (Hne Haddr). }
    eexists. split; [| split_and!].
    + rewrite bool_decide_eq_true_2 by exact Hshorter. reflexivity.
    + reflexivity.
    + cbn. intros (r & Hr & Hra). apply list_elem_of_filter in Hr as [Hne _].
      exact (Hne Hra).
    + cbn. intros r. rewrite list_elem_of_filter. tauto.
    + cbn. apply sublist_filter.
    + cbn. exact Hshorter.
    + repeat split.
Qed.

Lemma addServer_removeServer_witness :
  let h : Heap := fun p =>
    match p with
    | O => Server.new "10.0.0.1:80" 1 0
    | S O => Server.new "10.0.0.2:80" 1 0
    | S (S O) => Server.new "10.0.0.1:80" 2 0
    | _ => Server.new "10.0.0.3:80" 1 0
    end in
  let this := LoadBalancer.new [0%nat; 1%nat] ROUND_ROBIN 5000 3 in
  addServer h (Some 2%nat) this = (false, this) /\
  (exists this', addServer h (Some 3%nat) this = (true, this')
                 /\ _serversList this' = [0%nat; 1%nat; 3%nat]) /\
  removeServer h "10.0.0.9:80" this = (false, this) /\
  (exists this', removeServer h "10.0.0.1:80" this = (true, this')
                 /\ _serversList this' = [1%nat]).
Proof.
  intros h this.
  destruct (addServer_removeServer h this) as (_ & Hdup & Hnew & Habsent & Hgone).
  assert (Hnot : forall address,
            address <> "10.0.0.1:80" -> address <> "10.0.0.2:80" ->
            ~ Spec.present h address (_serversList this)).
  { intros address H1 H2 (q & Hq & Haddr).
    apply elem_of_cons in Hq as [-> | Hq]; [exact (H1 (eq_sym Haddr)) |].
    apply elem_of_cons in Hq as [-> | Hq]; [exact (H2 (eq_sym Haddr)) |].
    apply elem_of_nil in Hq. exact Hq. }
  split_and!.
  - apply Hdup. exists 0%nat. split; [left | reflexivity].
  - destruct (Hnew 3%nat) as (this' & Hcall & Hpool & _).
    + apply Hnot; discriminate.
    + exists this'. split; [exact Hcall | exact Hpool].
  - apply Habsent. apply Hnot; discriminate.
  - destruct (Hgone "10.0.0.1:80") as (this' & Hcall & Hpool & _).
    + exists 0%nat. split; [left | reflexivity].
    + exists this'. split; [exact Hcall | rewrite Hpool; reflexivity].
Defined.

(** C8. Both constructors throw [invalid_argument] on an empty list of
    servers, and build the balancer, with the given pool and its index at
    0, on any other list. *)
Theorem constructors_on_empty_pool :
  (forall interval failures,
     RoundRobinLoadBalancer.new [] interval failures
     = inl (invalid_argument "Server list cannot be empty")) /\
  (forall h interval failures,
     WeightedRoundRobinLoadBalancer.new h [] interval failures
     = inl (invalid_argument "Server list cannot be empty")) /\
  (forall servers interval failures,
     servers <> [] ->
     exists this,
       RoundRobinLoadBalancer.new servers interval failures = inr this /\
       _serversList (RoundRobinLoadBalancer.base this) = servers /\
       RoundRobinLoadBalancer._currentServerIndex this = 0) /\
  (forall h servers interval failures,
     servers <> [] ->
     exists this,
       WeightedRoundRobinLoadBalancer.new h servers interval failures = inr this /\
       _serversList (WeightedRoundRobinLoadBalancer.base this) = servers /\
       WeightedRoundRobinLoadBalancer._currentServerIndex this = 0).
Proof.
  repeat apply conj.
  - reflexivity.
  - reflexivity.
  - intros [| p servers] interval failures Hne; [congruence |].
    eexists. repeat split.
  - intros h [| p servers] interval failures Hne; [congruence |].
    eexists. repeat split.
Qed.

Lemma constructors_on_empty_pool_witness :
  exists this,
    RoundRobinLoadBalancer.new [0%nat; 1%nat] 5000 3 = inr this /\
    _serversList (RoundRobinLoadBalancer.base this) = [0%nat; 1%nat] /\
    RoundRobinLoadBalancer._currentServerIndex this = 0.
Proof.
  destruct constructors_on_empty_pool as (_ & _ & Hrr & _).
  apply Hrr. discriminate.
Defined.

End Pool.

(** ** The selection loop *)

Section Selection.
Import Machine LoadBalancer.

Variable h : Heap.
Variable l : list ServerPtr.
Variable c : Z.
Hypothesis fits : Spec.cursor_fits c (length l).

Lemma slot_lt (i : nat) : (0 < length l)%nat -> (Spec.slot c (length l) i < length l)%nat.
Proof.
  intros Hpos. unfold Spec.slot.
  pose proof (Z.mod_pos_bound (c + Z.of_nat i) (Z.of_nat (length l))) as Hb.
  lia.
Qed.

Lemma index_slot (i : nat) :
  (i < length l)%nat ->
  size_add c (Z.of_nat i) mod Z.of_nat (length l)
  = Z.of_nat (Spec.slot c (length l) i).
Proof.
  intros Hi. destruct fits as [Hc Hn]. unfold PTRDIFF_MAX in Hc, Hn.
  unfold size_add, wrap64, Spec.slot.
  rewrite (Z.mod_small (c + Z.of_nat i)) by lia.
  pose proof (Z.mod_pos_bound (c + Z.of_nat i) (Z.of_nat (length l))) as Hb.
  lia.
Qed.

Lemma slot_lookup (i : nat) :
  (i < length l)%nat -> is_Some (l !! Spec.slot c (length l) i).
Proof. intros Hi. apply lookup_lt_is_Some. apply slot_lt. lia. Qed.

(** Every index of the pool is the slot of one step of the scan. *)
Lemma slot_covers (k : nat) :
  (k < length l)%nat ->
  exists i, (i < length l)%nat /\ Spec.slot c (length l) i = k.
Proof.
  intros Hk.
  exists (Z.to_nat ((Z.of_nat k - c) mod Z.of_nat (length l))).
  pose proof (Z.mod_pos_bound (Z.of_nat k - c) (Z.of_nat (length l))) as Hb.
  split; [lia |].
  unfold Spec.slot. rewrite Z2Nat.id by lia.
  rewrite Z.add_mod_idemp_r by lia.
  replace (c + (Z.of_nat k - c)) with (Z.of_nat k) by lia.
  rewrite Z.mod_small by lia. lia.
Qed.

Lemma firstPass_step (todo i : nat) (fb : option ServerPtr) (q : ServerPtr) :
  (i < length l)%nat ->
  l !! Spec.slot c (length l) i = Some q ->
  firstPass h l c (Z.of_nat (length l)) (S todo) (Z.of_nat i) fb
  = if Server.isAlive (h q) then
      if Server.isHealthy (h q)
      then Some (Found (Z.of_nat (Spec.slot c (length l) i)) q)
      else firstPass h l c (Z.of_nat (length l)) todo (Z.of_nat (S i))
                     (match fb with None => Some q | Some _ => fb end)
    else firstPass h l c (Z.of_nat (length l)) todo (Z.of_nat (S i)) fb.
Proof.
  intros Hi Hq. cbn [firstPass]. rewrite (index_slot i Hi), Nat2Z.id, Hq.
  replace (Z.of_nat i + 1) with (Z.of_nat (S i)) by lia.
  reflexivity.
Qed.

(** The scan stops at the first step whose target is alive and healthy. *)
Lemma firstPass_found (todo : nat) :
  forall (i k : nat) (p : ServerPtr) (fb : option ServerPtr),
    (i <= k < i + todo)%nat -> (i + todo <= length l)%nat ->
    l !! Spec.slot c (length l) k = Some p ->
    Spec.usable h p = true ->
    (forall j q, (i <= j < k)%nat -> l !! Spec.slot c (length l) j = Some q ->
                 Spec.usable h q = false) ->
    firstPass h l c (Z.of_nat (length l)) todo (Z.of_nat i) fb
    = Some (Found (Z.of_nat (Spec.slot c (length l) k)) p).
Proof.
  induction todo as [| todo IH]; intros i k p fb Hk Hn Hp Hup Hbefore; [lia |].
  destruct (decide (i = k)) as [-> | Hne].
  - rewrite (firstPass_step todo k fb p) by (lia || assumption).
    unfold Spec.usable in Hup. apply andb_true_iff in Hup as [-> ->]. reflexivity.
  - destruct (slot_lookup i) as [q Hq]; [lia |].
    rewrite (firstPass_step todo i fb q) by (lia || assumption).
    assert (Huq : Spec.usable h q = false) by (apply (Hbefore i); [lia | exact Hq]).
    unfold Spec.usable in Huq.
    destruct (Server.isAlive (h q)); [destruct (Server.isHealthy (h q)) |].
    + discriminate Huq.
    + apply IH; try assumption; try lia. intros j r Hj. apply Hbefore. lia.
    + apply IH; try assumption; try lia. intros j r Hj. apply Hbefore. lia.
Qed.

(** Without any alive and healthy target in what is left to scan, the scan
    runs to its end; a fallback that is already set is kept. *)
Lemma firstPass_keeps_fallback (todo : nat) :
  forall (i : nat) (f : ServerPtr),
    (i + todo <= length l)%nat ->
    (forall j q, (i <= j < i + todo)%nat -> l !! Spec.slot c (length l) j = Some q ->
                 Spec.usable h q = false) ->
    firstPass h l c (Z.of_nat (length l)) todo (Z.of_nat i) (Some f)
    = Some (NotFound (Some f)).
Proof.
  induction todo as [| todo IH]; intros i f Hn Hnone; [reflexivity |].
  destruct (slot_lookup i) as [q Hq]; [lia |].
  rewrite (firstPass_step todo i (Some f) q) by (lia || assumption).
  assert (Huq : Spec.usable h q = false) by (apply (Hnone i); [lia | exact Hq]).
  unfold Spec.usable in Huq.
  destruct (Server.isAlive (h q)); [destruct (Server.isHealthy (h q)) |].
  - discriminate Huq.
  - apply IH; [lia |]. intros j r Hj. apply Hnone. lia.
  - apply IH; [lia |]. intros j r Hj. apply Hnone. lia.
Qed.

(** ... and the first alive target met becomes the fallback. *)
Lemma firstPass_fallback (todo : nat) :
  forall (i k : nat) (p : ServerPtr),
    (i <= k < i + todo)%nat -> (i + todo <= length l)%nat ->
    l !! Spec.slot c (length l) k = Some p ->
    Server.isAlive (h p) = true ->
    (forall j q, (i <= j < k)%nat -> l !! Spec.slot c (length l) j = Some q ->
                 Server.isAlive (h q) = false) ->
    (forall j q, (i <= j < i + todo)%nat -> l !! Spec.slot c (length l) j = Some q ->
                 Spec.usable h q = false) ->
    firstPass h l c (Z.of_nat (length l)) todo (Z.of_nat i) None
    = Some (NotFound (Some p)).
Proof.
  induction todo as [| todo IH]; intros i k p Hk Hn Hp Halive Hdead Hnone; [lia |].
  destruct (decide (i = k)) as [-> | Hne].
  - rewrite (firstPass_step todo k None p) by (lia || assumption).
    assert (Hup : Spec.usable h p = false) by (apply (Hnone k); [lia | exact Hp]).
    unfold Spec.usable in Hup. rewrite Halive in Hup |- *. cbn in Hup. rewrite Hup.
    apply firstPass_keeps_fallback; [lia |].
    intros j q Hj. apply Hnone. lia.
  - destruct (slot_lookup i) as [q Hq]; [lia |].
    rewrite (firstPass_step todo i None q) by (lia || assumption).
    rewrite (Hdead i q) by (lia || assumption).
    apply (IH (S i) k p); try assumption; try lia.
    + intros j r Hj. apply Hdead. lia.
    + intros j r Hj. apply Hnone. lia.
Qed.

(** A scan that ends without a fallback has met no alive target. *)
Lemma firstPass_nothing (todo : nat) :
  forall (i : nat) (fb : option ServerPtr),
    (i + todo <= length l)%nat ->
    firstPass h l c (Z.of_nat (length l)) todo (Z.of_nat i) fb
    = Some (NotFound None) ->
    fb = None /\
    forall j q, (i <= j < i + todo)%nat -> l !! Spec.slot c (length l) j = Some q ->
                Server.isAlive (h q) = false.
Proof.
  induction todo as [| todo IH]; intros i fb Hn Hres.
  - cbn in Hres. split; [congruence | intros; lia].
  - destruct (slot_lookup i) as [q Hq]; [lia |].
    rewrite (firstPass_step todo i fb q) in Hres by (lia || assumption).
    destruct (Server.isAlive (h q)) eqn:Ha; [destruct (Server.isHealthy (h q)) |].
    + discriminate Hres.
    + apply IH in Hres as [Hfb _]; [| lia]. destruct fb; discriminate Hfb.
    + apply IH in Hres as [Hfb Hrest]; [| lia]. split; [exact Hfb |].
      intros j r Hj Hr. destruct (decide (j = i)) as [-> | Hji].
      * congruence.
      * apply (Hrest j); [lia | exact Hr].
Qed.

(** With no alive target at all, the scan ends without a fallback. *)
Lemma firstPass_all_dead (todo : nat) :
  forall (i : nat),
    (i + todo <= length l)%nat ->
    (forall q, q ∈ l -> Server.isAlive (h q) = false) ->
    firstPass h l c (Z.of_nat (length l)) todo (Z.of_nat i) None
    = Some (NotFound None).
Proof.
  induction todo as [| todo IH]; intros i Hn Hdead; [reflexivity |].
  destruct (slot_lookup i) as [q Hq]; [lia |].
  rewrite (firstPass_step todo i None q) by (lia || assumption).
  rewrite (Hdead q) by (apply list_elem_of_lookup_2 in Hq; exact Hq).
  apply IH; [lia | exact Hdead].
Qed.

(** The second loop finds the first position of the fallback in the list. *)
Lemma fallbackIndex_first (f : ServerPtr) (todo : nat) :
  forall i : nat,
    (i + todo = length l)%nat ->
    (forall j, (j < i)%nat -> l !! j <> Some f) ->
    f ∈ l ->
    exists k, (k < length l)%nat /\
              fallbackIndex l f todo (Z.of_nat i) = Some (Some (Z.of_nat k)) /\
              l !! k = Some f /\
              forall j, (j < k)%nat -> l !! j <> Some f.
Proof.
  induction todo as [| todo IH]; intros i Hn Hbefore Hin.
  - apply list_elem_of_lookup_1 in Hin as [j Hj].
    pose proof (lookup_lt_Some _ _ _ Hj) as Hlt.
    destruct (Hbefore j); [lia | exact Hj].
  - destruct (lookup_lt_is_Some_2 l i) as [q Hq]; [lia |].
    cbn [fallbackIndex]. rewrite Nat2Z.id, Hq. cbn.
    destruct (decide (q = f)) as [-> | Hne].
    + exists i. repeat split; [lia | exact Hq | exact Hbefore].
    + replace (Z.of_nat i + 1) with (Z.of_nat (S i)) by lia.
      apply IH; [lia | | exact Hin].
      intros j Hj. destruct (decide (j = i)) as [-> | Hji].
      * rewrite Hq. congruence.
      * apply Hbefore. lia.
Qed.

Lemma size_add_one (k : nat) :
  (k < length l)%nat -> size_add (Z.of_nat k) 1 = Z.of_nat k + 1.
Proof.
  intros Hk. destruct fits as [Hc Hn]. unfold PTRDIFF_MAX in Hc, Hn.
  unfold size_add, wrap64. apply Z.mod_small. lia.
Qed.

Lemma firstPass_whole :
  firstPass h l c (Z.of_nat (length l)) (length l) 0 None
  = firstPass h l c (Z.of_nat (length l)) (length l) (Z.of_nat 0) None.
Proof. reflexivity. Qed.

(** The first alive and healthy target of the scan is returned, and the
    index moves just past its slot. *)
Lemma select_found (i : nat) (p : ServerPtr) :
  (i < length l)%nat ->
  l !! Spec.slot c (length l) i = Some p ->
  Spec.usable h p = true ->
  (forall j q, (j < i)%nat -> l !! Spec.slot c (length l) j = Some q ->
               Spec.usable h q = false) ->
  select h l c
  = Some (Some p,
          (Z.of_nat (Spec.slot c (length l) i) + 1) mod Z.of_nat (length l)).
Proof.
  intros Hi Hp Hup Hbefore. unfold select.
  rewrite firstPass_whole, (firstPass_found (length l) 0 i p None);
    try assumption; try lia.
  - cbn. rewrite size_add_one by (apply slot_lt; lia). reflexivity.
  - intros j q Hj. apply Hbefore. lia.
Qed.

(** Without an alive and healthy target in the list, the first alive one
    of the scan is returned, and the index moves just past the first
    position that holds it. *)
Lemma select_fallback (i : nat) (p : ServerPtr) :
  (i < length l)%nat ->
  l !! Spec.slot c (length l) i = Some p ->
  Server.isAlive (h p) = true ->
  (forall q, q ∈ l -> Spec.usable h q = false) ->
  (forall j q, (j < i)%nat -> l !! Spec.slot c (length l) j = Some q ->
               Server.isAlive (h q) = false) ->
  exists k,
    l !! k = Some p /\
    (forall j, (j < k)%nat -> l !! j <> Some p) /\
    (NoDup l -> k = Spec.slot c (length l) i) /\
    select h l c
    = Some (Some p, (Z.of_nat k + 1) mod Z.of_nat (length l)).
Proof.
  intros Hi Hp Halive Hnone Hdead.
  destruct (fallbackIndex_first p (length l) 0) as (k & Hk & Hidx & Hkp & Hfirst).
  - lia.
  - intros j Hj. lia.
  - apply list_elem_of_lookup_2 in Hp. exact Hp.
  - exists k. repeat apply conj; [exact Hkp | exact Hfirst | |].
    + intros Hnodup. exact (NoDup_lookup _ _ _ _ Hnodup Hkp Hp).
    + unfold select.
      rewrite firstPass_whole, (firstPass_fallback (length l) 0 i p);
        try assumption; try lia.
      * cbn. change 0 with (Z.of_nat 0). rewrite Hidx. cbn.
        rewrite size_add_one by exact Hk. reflexivity.
      * intros j q Hj. apply Hdead. lia.
      * intros j q Hj Hq. apply Hnone. apply list_elem_of_lookup_2 in Hq. exact Hq.
Qed.

(** Nothing is returned, and the index stays, exactly when no target of the
    list is alive. *)
Lemma select_nothing :
  (forall q, q ∈ l -> Server.isAlive (h q) = false) ->
  select h l c = Some (None, c).
Proof.
  intros Hdead. unfold select.
  rewrite firstPass_whole, (firstPass_all_dead (length l) 0); [reflexivity | lia | exact Hdead].
Qed.

Lemma select_nothing_inv (c' : Z) :
  select h l c = Some (None, c') ->
  forall q, q ∈ l -> Server.isAlive (h q) = false.
Proof.
  unfold select. rewrite firstPass_whole.
  destruct (firstPass h l c (Z.of_nat (length l)) (length l) (Z.of_nat 0) None)
    as [[index server | [f |]] |] eqn:Hscan; cbn.
  - discriminate.
  - destruct (fallbackIndex l f (length l) 0) as [[k |] |]; cbn; discriminate.
  - intros _ q Hq.
    apply firstPass_nothing in Hscan as [_ Hdead]; [| lia].
    apply list_elem_of_lookup_1 in Hq as [k Hk].
    destruct (slot_covers k) as (i & Hi & Hslot).
    { apply lookup_lt_Some in Hk. exact Hk. }
    apply (Hdead i); [lia | rewrite Hslot; exact Hk].
  - discriminate.
Qed.

(** Both loops stay inside the vector: the selection always returns. *)
Lemma firstPass_total (todo : nat) :
  forall (i : nat) (fb : option ServerPtr),
    (i + todo <= length l)%nat ->
    is_Some (firstPass h l c (Z.of_nat (length l)) todo (Z.of_nat i) fb).
Proof.
  induction todo as [| todo IH]; intros i fb Hn; [eexists; reflexivity |].
  destruct (slot_lookup i) as [q Hq]; [lia |].
  rewrite (firstPass_step todo i fb q) by (lia || assumption).
  destruct (Server.isAlive (h q)); [destruct (Server.isHealthy (h q)) |].
  - eexists; reflexivity.
  - apply IH. lia.
  - apply IH. lia.
Qed.

Lemma fallbackIndex_total (f : ServerPtr) (todo : nat) :
  forall i : nat,
    (i + todo <= length l)%nat ->
    is_Some (fallbackIndex l f todo (Z.of_nat i)).
Proof.
  induction todo as [| todo IH]; intros i Hn; [eexists; reflexivity |].
  destruct (lookup_lt_is_Some_2 l i) as [q Hq]; [lia |].
  cbn [fallbackIndex]. rewrite Nat2Z.id, Hq. cbn.
  destruct (decide (q = f)); [eexists; reflexivity |].
  replace (Z.of_nat i + 1) with (Z.of_nat (S i)) by lia.
  apply IH. lia.
Qed.

Lemma select_total : is_Some (select h l c).
Proof.
  unfold select. rewrite firstPass_whole.
  destruct (firstPass_total (length l) 0 None) as [r ->]; [lia |]. cbn.
  destruct r as [index server | [f |]]; [eexists; reflexivity | | eexists; reflexivity].
  change 0 with (Z.of_nat 0).
  destruct (fallbackIndex_total f (length l) 0) as [found ->]; [lia |]. cbn.
  destruct found; eexists; reflexivity.
Qed.

End Selection.

(** ** Round robin *)

Section RoundRobin.
Import Machine LoadBalancer RoundRobinLoadBalancer.

Lemma getNextServer_select (h : Heap) (this : RoundRobinLoadBalancer.t) :
  _serversList (base this) <> [] ->
  getNextServer h this
  = '(result, index) ← select h (_serversList (base this)) (_currentServerIndex this);
    Some (result, set_currentServerIndex index this).
Proof.
  unfold getNextServer. destruct (_serversList (base this)); [congruence | reflexivity].
Qed.

Lemma set_currentServerIndex_same (this : RoundRobinLoadBalancer.t) :
  set_currentServerIndex (_currentServerIndex this) this = this.
Proof. destruct this; reflexivity. Qed.

(** C1. [getNextServer] always returns.  It goes once around the pool from
    the stored index: the first target met that is alive and healthy is
    returned, and the index becomes that target's index plus one, modulo
    the pool size.  When no target is alive and healthy, the first alive
    target met is returned, and the index moves just past the (first)
    position of that target in the pool, which is the position where the
    scan met it when the pool has no pointer twice.  Null is returned,
    with the index unchanged, when no target of the pool is alive, and
    only then.  The index is read from the balancer that the call leaves,
    whose pool is the pool it had. *)
Theorem getNextServer_scan (h : Heap) (this : RoundRobinLoadBalancer.t) :
  let pool := _serversList (base this) in
  let n := length pool in
  let cursor := _currentServerIndex this in
  Spec.cursor_fits cursor n ->
  is_Some (getNextServer h this) /\
  (forall i p,
     (i < n)%nat ->
     pool !! Spec.slot cursor n i = Some p ->
     Spec.usable h p = true ->
     (forall j q, (j < i)%nat -> pool !! Spec.slot cursor n j = Some q ->
                  Spec.usable h q = false) ->
     exists this',
       getNextServer h this = Some (Some p, this') /\
       _currentServerIndex this'
       = (Z.of_nat (Spec.slot cursor n i) + 1) mod Z.of_nat n /\
       base this' = base this) /\
  (forall i p,
     (i < n)%nat ->
     pool !! Spec.slot cursor n i = Some p ->
     Server.isAlive (h p) = true ->
     (forall q, q ∈ pool -> Spec.usable h q = false) ->
     (forall j q, (j < i)%nat -> pool !! Spec.slot cursor n j = Some q ->
                  Server.isAlive (h q) = false) ->
     exists k this',
       pool !! k = Some p /\
       (forall j, (j < k)%nat -> pool !! j <> Some p) /\
       (NoDup pool -> k = Spec.slot cursor n i) /\
       getNextServer h this = Some (Some p, this') /\
       _currentServerIndex this' = (Z.of_nat k + 1) mod Z.of_nat n /\
       base this' = base this) /\
  ((forall q, q ∈ pool -> Server.isAlive (h q) = false) ->
   getNextServer h this = Some (None, this)) /\
  (forall this',
     getNextServer h this = Some (None, this') ->
     _currentServerIndex this' = cursor /\
     base this' = base this /\
     forall q, q ∈ pool -> Server.isAlive (h q) = false).
Proof.
  cbn zeta. intros Hfit.
  destruct (decide (_serversList (base this) = [])) as [Hnil | Hne].
  - (* the empty pool *)
    unfold getNextServer. rewrite Hnil. cbn.
    repeat apply conj.
    + eexists; reflexivity.
    + intros i p Hi. lia.
    + intros i p Hi. lia.
    + reflexivity.
    + intros this' [= <-]. split_and!; try reflexivity.
      intros q Hq. apply elem_of_nil in Hq. destruct Hq.
  - rewrite (getNextServer_select h this Hne).
    repeat apply conj.
    + destruct (select_total h _ _ Hfit) as [[r index] ->]. eexists; reflexivity.
    + intros i p Hi Hp Hup Hbefore.
      rewrite (select_found h _ _ Hfit i p Hi Hp Hup Hbefore).
      eexists. split_and!; reflexivity.
    + intros i p Hi Hp Halive Hnone Hdead.
      destruct (select_fallback h _ _ Hfit i p Hi Hp Halive Hnone Hdead)
        as (k & Hk & Hfirst & Hnodup & ->).
      exists k. eexists. split_and!; try assumption; reflexivity.
    + intros Hdead. rewrite (select_nothing h _ _ Hfit Hdead). cbn.
      rewrite set_currentServerIndex_same. reflexivity.
    + intros this' Hres.
      destruct (select h (_serversList (base this)) (_currentServerIndex this))
        as [[r index] |] eqn:Hsel; cbn in Hres; [| discriminate Hres].
      injection Hres as -> <-.
      pose proof (select_nothing_inv h _ _ Hfit index Hsel) as Hdead.
      rewrite (select_nothing h _ _ Hfit Hdead) in Hsel. injection Hsel as <-.
      split_and!; [reflexivity | reflexivity | exact Hdead].
Qed.

(** The bound on the cursor is an invariant: it holds after construction
    and every call keeps it. *)
Lemma select_index_range (h : Heap) (l : list ServerPtr) (c c' : Z)
    (r : option ServerPtr) :
  select h l c = Some (r, c') ->
  c' = c \/ 0 <= c' < Z.of_nat (length l).
Proof.
  unfold select.
  destruct (firstPass h l c (Z.of_nat (length l)) (length l) 0 None)
    as [[index server | [f |]] |] eqn:Hscan; cbn; try discriminate.
  - intros [= _ <-]. right. apply Z.mod_pos_bound.
    destruct l; [discriminate Hscan | cbn; lia].
  - destruct (fallbackIndex l f (length l) 0) as [[k |] |] eqn:Hidx; cbn;
      try discriminate.
    + intros [= _ <-]. right. apply Z.mod_pos_bound.
      destruct l; [discriminate Hidx | cbn; lia].
    + intros [= _ <-]. left. reflexivity.
  - intros [= _ <-]. left. reflexivity.
Qed.

Lemma cursor_fits_kept (h : Heap) (this this' : RoundRobinLoadBalancer.t)
    (r : option ServerPtr) :
  Spec.cursor_fits (_currentServerIndex this) (length (_serversList (base this))) ->
  getNextServer h this = Some (r, this') ->
  base this' = base this /\
  Spec.cursor_fits (_currentServerIndex this') (length (_serversList (base this'))).
Proof.
  intros Hfit. unfold getNextServer.
  destruct (_serversList (base this)) as [| q rest] eqn:Hpool.
  - intros [= _ <-]. rewrite Hpool. split; [reflexivity | exact Hfit].
  - destruct (select h (q :: rest) (_currentServerIndex this)) as [[r0 c'] |] eqn:Hsel;
      cbn; [| discriminate].
    intros [= _ <-]. cbn. rewrite Hpool. split; [reflexivity |].
    apply select_index_range in Hsel as [-> | Hrange]; [exact Hfit |].
    destruct Hfit as [_ Hlen]. split; [lia | exact Hlen].
Qed.

Lemma cursor_fits_new (servers : list ServerPtr) (interval failures : Z)
    (this : RoundRobinLoadBalancer.t) :
  Z.of_nat (length servers) <= PTRDIFF_MAX ->
  RoundRobinLoadBalancer.new servers interval failures = inr this ->
  Spec.cursor_fits (_currentServerIndex this) (length (_serversList (base this))).
Proof.
  intros Hlen. unfold RoundRobinLoadBalancer.new.
  destruct servers; [discriminate |]. intros [= <-]. cbn.
  split; [unfold PTRDIFF_MAX; lia | exact Hlen].
Qed.

Lemma getNextServer_scan_witness :
  let h : Heap := fun p =>
    match p with
    | O => Server.setAlive false (Server.new "10.0.0.1:80" 1 0)
    | S O => Server.setHealthy true (Server.new "10.0.0.2:80" 1 0)
    | _ => Server.new "10.0.0.3:80" 1 0
    end in
  let this :=
    {| base := LoadBalancer.new [0%nat; 1%nat; 2%nat] ROUND_ROBIN 5000 3;
       _currentServerIndex := 0 |} in
  exists this',
    getNextServer h this = Some (Some 1%nat, this') /\
    _currentServerIndex this' = 2 /\
    base this' = base this.
Proof.
  intros h this.
  destruct (getNextServer_scan h this) as (_ & Hfound & _).
  - unfold Spec.cursor_fits, PTRDIFF_MAX. cbn. lia.
  - apply (Hfound 1%nat 1%nat).
    + cbn. lia.
    + reflexivity.
    + reflexivity.
    + intros [| j] q Hj Hq; [| lia].
      vm_compute in Hq. injection Hq as <-. reflexivity.
Defined.


Lemma slot_next (c : Z) (n k : nat) :
  (1 <= n)%nat ->
  Spec.slot ((Z.of_nat (Spec.slot c n 0) + 1) mod Z.of_nat n) n k
  = Spec.slot c n (S k).
Proof.
  intros Hn. unfold Spec.slot. f_equal.
  pose proof (Z.mod_pos_bound (c + Z.of_nat 0) (Z.of_nat n)) as Hb.
  rewrite Z2Nat.id by lia.
  rewrite Z.add_mod_idemp_l by lia.
  rewrite Z.add_0_r.
  rewrite <- Z.add_assoc, Z.add_mod_idemp_l by lia.
  f_equal. lia.
Qed.


Lemma slots_rotate (pool : list ServerPtr) (c : Z) :
  (1 <= length pool)%nat ->
  (fun k => pool !! Spec.slot c (length pool) k) <$> seq 0 (length pool)
  = Some <$> rotate (Spec.slot c (length pool) 0) pool.
Proof.
  intros Hn. apply list_eq. intros i. rewrite !list_lookup_fmap.
  destruct (decide (i < length pool)%nat) as [Hi | Hi].
  - rewrite lookup_seq_lt by exact Hi. cbn.
    rewrite lookup_rotate_r by exact Hi.
    assert (Hidx : rotate_nat_add (Spec.slot c (length pool) 0) i (length pool)
                   = Spec.slot c (length pool) i).
    { unfold rotate_nat_add, Spec.slot. f_equal.
      pose proof (Z.mod_pos_bound (c + Z.of_nat 0) (Z.of_nat (length pool))) as Hb.
      rewrite Z2Nat.id by lia.
      rewrite Z.add_0_r, Z.add_mod_idemp_l by lia. reflexivity. }
    rewrite Hidx.
    destruct (lookup_lt_is_Some_2 pool (Spec.slot c (length pool) i)) as [p ->].
    + unfold Spec.slot.
      pose proof (Z.mod_pos_bound (c + Z.of_nat i) (Z.of_nat (length pool))). lia.
    + reflexivity.
  - rewrite lookup_seq_ge by lia.
    rewrite (lookup_ge_None_2 (rotate _ _)) by (rewrite length_rotate; lia).
    reflexivity.
Qed.

Lemma rotate_Permutation (pool : list ServerPtr) (k : nat) :
  rotate k pool ≡ₚ pool.
Proof.
  unfold rotate. rewrite Permutation_app_comm. rewrite take_drop. reflexivity.
Qed.



End RoundRobin.

(** ** Weighted round robin *)

Section WeightedRoundRobin.
Import Machine LoadBalancer WeightedRoundRobinLoadBalancer.

Lemma pushCopies_app (todo : nat) (server : ServerPtr) :
  forall weighted,
    pushCopies todo server weighted = weighted ++ replicate todo server.
Proof.
  induction todo as [| todo IH]; intros weighted; cbn.
  - rewrite app_nil_r. reflexivity.
  - rewrite IH, <- app_assoc. reflexivity.
Qed.

Lemma fold_expansion (h : Heap) (pool : list ServerPtr) :
  forall weighted,
    fold_left
      (fun weighted server =>
         if Server.isAlive (h server)
         then pushCopies (Z.to_nat (Server.getWeight (h server))) server weighted
         else weighted)
      pool weighted
    = weighted ++ Spec.expansion h pool.
Proof.
  unfold Spec.expansion.
  induction pool as [| p pool IH]; intros weighted; cbn [fold_left].
  - cbn. rewrite app_nil_r. reflexivity.
  - rewrite IH, bind_cons. destruct (Server.isAlive (h p)).
    + rewrite pushCopies_app, <- app_assoc. reflexivity.
    + reflexivity.
Qed.

Lemma updateWeightedList_expansion (h : Heap) (this : WeightedRoundRobinLoadBalancer.t) :
  updateWeightedList h this
  = set_weightedServersList (Spec.expansion h (_serversList (base this))) this.
Proof. unfold updateWeightedList. rewrite fold_expansion. reflexivity. Qed.

Lemma expansion_elem (h : Heap) (pool : list ServerPtr) (p : ServerPtr) :
  p ∈ Spec.expansion h pool <->
  p ∈ pool /\ Server.isAlive (h p) = true /\ 0 < Server.getWeight (h p).
Proof.
  unfold Spec.expansion. rewrite list_elem_of_bind. split.
  - intros (q & Hin & Hq). destruct (Server.isAlive (h q)) eqn:Halive.
    + apply elem_of_replicate in Hin as [-> Hw]. repeat split; [exact Hq | exact Halive | lia].
    + apply elem_of_nil in Hin. destruct Hin.
  - intros (Hin & Halive & Hw). exists p. split; [| exact Hin].
    rewrite Halive. apply elem_of_replicate. split; [reflexivity | lia].
Qed.

(** C3. [updateWeightedList] sets the expansion list to the alive targets
    of the pool, in pool order, each one [weight] times in a row, and
    touches nothing else; a target that is not alive is nowhere in the
    list, whatever its weight.  [getNextServer] rebuilds the list exactly
    when it finds it empty, and selects from the rebuilt list; on a list
    that is not empty it selects from the list as it stands and leaves it
    unchanged. *)
Theorem weighted_list_rebuild (h : Heap) (this : WeightedRoundRobinLoadBalancer.t) :
  let pool := _serversList (base this) in
  _weightedServersList (updateWeightedList h this) = Spec.expansion h pool /\
  base (updateWeightedList h this) = base this /\
  _currentServerIndex (updateWeightedList h this) = _currentServerIndex this /\
  (forall p, Server.isAlive (h p) = false ->
             p ∉ _weightedServersList (updateWeightedList h this)) /\
  (_weightedServersList this = [] ->
   getNextServer h this = getNextServer h (updateWeightedList h this) /\
   forall r this', getNextServer h this = Some (r, this') ->
                   _weightedServersList this' = Spec.expansion h pool) /\
  (_weightedServersList this <> [] ->
   getNextServer h this
   = ('(result, index) ← select h (_weightedServersList this)
                                 (_currentServerIndex this);
      Some (result, set_currentServerIndex index this)) /\
   forall r this', getNextServer h this = Some (r, this') ->
                   _weightedServersList this' = _weightedServersList this).
Proof.
  cbn zeta. rewrite updateWeightedList_expansion. cbn [_weightedServersList
    set_weightedServersList base _currentServerIndex].
  repeat apply conj; try reflexivity.
  - intros p Hdead Hin. apply expansion_elem in Hin as (_ & Halive & _). congruence.
  - intros Hempty. unfold getNextServer. rewrite Hempty.
    rewrite !updateWeightedList_expansion. cbn [_weightedServersList
      set_weightedServersList base _currentServerIndex].
    split.
    + destruct (Spec.expansion h (_serversList (base this))); reflexivity.
    + intros r this'.
      destruct (Spec.expansion h (_serversList (base this))) as [| q rest] eqn:Hexp.
      * intros [= _ <-]. reflexivity.
      * destruct (select h (q :: rest) (_currentServerIndex this)) as [[r0 i0] |];
          cbn; [| discriminate].
        intros [= _ <-]. reflexivity.
  - intros Hne. unfold getNextServer.
    destruct (_weightedServersList this) as [| q rest] eqn:Hlist; [congruence |].
    rewrite Hlist. split; [reflexivity |].
    intros r this'.
    destruct (select h (q :: rest) (_currentServerIndex this)) as [[r0 i0] |];
      cbn; [| discriminate].
    intros [= _ <-]. cbn. exact Hlist.
Qed.

Lemma weighted_list_rebuild_witness :
  let h : Heap := fun p =>
    match p with
    | O => Server.new "10.0.0.1:80" 3 0
    | S O => Server.setAlive false (Server.new "10.0.0.2:80" 5 0)
    | _ => Server.new "10.0.0.3:80" 1 0
    end in
  let this :=
    {| base := LoadBalancer.new [0%nat; 1%nat; 2%nat] WEIGHTED_ROUND_ROBIN 5000 3;
       _currentServerIndex := 0;
       _weightedServersList := [] |} in
  _weightedServersList (updateWeightedList h this) = [0%nat; 0%nat; 0%nat; 2%nat] /\
  getNextServer h this = getNextServer h (updateWeightedList h this).
Proof.
  intros h this.
  destruct (weighted_list_rebuild h this) as (Hlist & _ & _ & _ & Hempty & _).
  split.
  - rewrite Hlist. reflexivity.
  - apply Hempty. reflexivity.
Defined.

End WeightedRoundRobin.

(** * Further properties of the code *)

(** ** Connection counting *)

Section Connections.
Import Machine Server.

(** X1. Counting a connection in and out again: after
    [incrementConnections] then [decrementConnections] the server is as it
    was, unless the counter stood at [2^32 - 1], where the unguarded
    increment wraps to 0 and the guarded decrement then leaves 0.  In the
    other order, the server is as it was when it had a connection to count
    out. *)
Theorem connections_in_and_out (s : Server.t) :
  is_uint32 (getCurrentConnections s) ->
  (getCurrentConnections s < UINT32_MAX ->
   decrementConnections (incrementConnections s) = s) /\
  (getCurrentConnections s = UINT32_MAX ->
   getCurrentConnections (incrementConnections s) = 0 /\
   getCurrentConnections (decrementConnections (incrementConnections s)) = 0) /\
  (0 < getCurrentConnections s ->
   incrementConnections (decrementConnections s) = s).
Proof.
  intros Hrange. destruct s as [addr alive healthy last weight conns fails].
  unfold is_uint32, UINT32_MAX in *. cbn in *.
  unfold decrementConnections, decrementLoaded, incrementConnections,
    setCurrentConnections. cbn.
  repeat apply conj.
  - intros Hlt. rewrite incr32_below by (unfold UINT32_MAX; lia).
    destruct (Z.ltb_spec 0 (conns + 1)); [| lia]. cbn.
    unfold decr32, wrap32. rewrite Z.mod_small by lia.
    f_equal. lia.
  - intros ->. split; reflexivity.
  - intros Hpos. destruct (Z.ltb_spec 0 conns); [| lia]. cbn.
    unfold decr32, incr32, wrap32. rewrite (Z.mod_small (conns - 1)) by lia.
    rewrite Z.mod_small by lia. f_equal. lia.
Qed.

Lemma connections_in_and_out_witness :
  decrementConnections (incrementConnections (Server.new "10.0.0.1:80" 1 0))
  = Server.new "10.0.0.1:80" 1 0.
Proof.
  apply (connections_in_and_out (Server.new "10.0.0.1:80" 1 0)).
  - unfold is_uint32, UINT32_MAX. cbn. lia.
  - unfold UINT32_MAX. cbn. lia.
Defined.

End Connections.

(** ** Probing, continued *)

Section ProbeEffects.
Import Machine Server PingServer.

Lemma updateStatus_frame (result : bool) (now : Z) (s : Server.t) :
  getServerAddress (updateStatus result now s) = getServerAddress s /\
  getWeight (updateStatus result now s) = getWeight s /\
  getCurrentConnections (updateStatus result now s) = getCurrentConnections s /\
  getLastHealthCheck (updateStatus result now s) = now.
Proof.
  unfold updateStatus. destruct result; cbn; [repeat split |].
  destruct (3 <=? incr32 (getFailureCount s)); repeat split.
Qed.

(** X2. A probe touches the health fields and the time stamp only: after
    [pingServer], whatever the probe answered, the server has the same
    address, weight and connection count, its time stamp is the clock read
    after the probe, and a null pointer is refused without a probe. *)
Theorem pingServer_frame (impl : PingImplementation) (this : PingServer.t)
    (w : World) (h : Heap) :
  pingServer impl this None w h = (false, w, h) /\
  forall p,
    let out := pingServer impl this (Some p) w h in
    getServerAddress (out.2 p) = getServerAddress (h p) /\
    getWeight (out.2 p) = getWeight (h p) /\
    getCurrentConnections (out.2 p) = getCurrentConnections (h p) /\
    getLastHealthCheck (out.2 p) = steady_clock_now out.1.2.
Proof.
  split; [reflexivity |].
  intros p. cbn zeta. rewrite pingServer_unfold. cbn [fst snd].
  rewrite heap_lookup_insert. apply updateStatus_frame.
Qed.

(** X3. Failing probes never bring a server back: a server that is not
    alive is still not alive after any number of failed probes, and the
    first probe that succeeds makes it alive and healthy with no failure
    counted. *)
Theorem dead_until_a_probe_succeeds (failing succeeding : PingImplementation)
    (this : PingServer.t) (p : ServerPtr) (n : nat) (w : World) (h : Heap) :
  (forall address timeout w', (failing address timeout w').1 = false) ->
  (forall address timeout w', (succeeding address timeout w').1 = true) ->
  isAlive (h p) = false ->
  let after := pingServerTimes n failing this (Some p) w h in
  let out := pingServer succeeding this (Some p) after.1 after.2 in
  isAlive (after.2 p) = false /\
  out.1.1 = true /\
  isAlive (out.2 p) = true /\
  isHealthy (out.2 p) = true /\
  getFailureCount (out.2 p) = 0.
Proof.
  intros Hfail Hok Hdead. cbn zeta. split.
  - apply failing_probes_dead; assumption.
  - rewrite pingServer_unfold. cbn [fst snd]. rewrite heap_lookup_insert, Hok.
    repeat split.
Qed.

Lemma dead_until_a_probe_succeeds_witness :
  let failing : PingImplementation := fun _ _ w => (false, w) in
  let succeeding : PingImplementation := fun _ _ w => (true, w) in
  let this := PingServer.new 1000 5000 in
  let h : Heap := fun _ => Server.setAlive false (Server.new "10.0.0.1:80" 1 0) in
  let w := {| steady_clock_now := 7; resolutions := [] |} in
  let after := pingServerTimes 5 failing this (Some 0%nat) w h in
  isAlive (after.2 0%nat) = false /\
  isAlive ((pingServer succeeding this (Some 0%nat) after.1 after.2).2 0%nat) = true.
Proof.
  intros failing succeeding this h w.
  destruct (dead_until_a_probe_succeeds failing succeeding this 0%nat 5 w h)
    as (Hdead & _ & Halive & _); try reflexivity.
  split; [exact Hdead | exact Halive].
Defined.

End ProbeEffects.

(** ** Address parsing and the default probe *)

Section DefaultProbe.
Import Machine PingServer.

Lemma parseServerAddress_split (host rest host0 : string) (port0 : Z) :
  Spec.no_colon host ->
  parseServerAddress (host +:+ ":" +:+ rest) host0 port0
  = match stoi rest with
    | inr port => (true, host, port)
    | inl _ => (false, host, port0)
    end.
Proof.
  intros Hno. unfold parseServerAddress.
  rewrite (find_colon_app host rest Hno), substr_to_app, substr_from_after_colon.
  reflexivity.
Qed.

Lemma read_digits_app (tail : string) :
  Spec.no_leading_digit tail ->
  forall (digits : string) (acc : option Z),
    Spec.all_digits digits ->
    read_digits (digits +:+ tail) acc = read_digits digits acc.
Proof.
  intros Htail. induction digits as [| a digits IH]; intros acc Hall.
  - change (EmptyString +:+ tail) with tail. cbn.
    destruct tail as [| b tail]; [reflexivity |].
    cbn in Htail |- *. rewrite Htail. reflexivity.
  - change (String a digits +:+ tail) with (String a (digits +:+ tail)).
    unfold Spec.all_digits in Hall. cbn in Hall.
    apply andb_true_iff in Hall as [Ha Hrest].
    cbn [read_digits]. destruct (digit a); [| discriminate Ha].
    apply IH. exact Hrest.
Qed.

Lemma stoi_leading_digit (a : ascii) (s : string) (v : Z) :
  digit a = Some v ->
  stoi (String a s)
  = match read_digits (String a s) None with
    | None => inl invalid_argument
    | Some n =>
        if (INT_MIN <=? n) && (n <=? INT_MAX) then inr n else inl out_of_range
    end.
Proof.
  intros Hd.
  destruct a as [[] [] [] [] [] [] [] []]; cbv in Hd; try discriminate Hd;
    reflexivity.
Qed.

Lemma stoi_space (a : ascii) (s : string) :
  isspace a = true -> stoi (String a s) = stoi s.
Proof. intros Hsp. unfold stoi. cbn [skip_spaces]. rewrite Hsp. reflexivity. Qed.

(** X4. The port is read the way [std::stoi] reads: white space before it
    is skipped, and whatever follows its digits is ignored, so that an
    address with text after the port parses as the address without it. *)
Theorem parseServerAddress_lenient_port (host : string) (host0 : string) (port0 : Z) :
  Spec.no_colon host ->
  (forall digits tail,
     digits <> EmptyString -> Spec.all_digits digits ->
     Spec.no_leading_digit tail ->
     parseServerAddress (host +:+ ":" +:+ digits +:+ tail) host0 port0
     = parseServerAddress (host +:+ ":" +:+ digits) host0 port0) /\
  (forall a rest,
     isspace a = true ->
     parseServerAddress (host +:+ ":" +:+ String a rest) host0 port0
     = parseServerAddress (host +:+ ":" +:+ rest) host0 port0).
Proof.
  intros Hno. split.
  - intros digits tail Hne Hall Htail.
    rewrite !(parseServerAddress_split host _ host0 port0 Hno).
    destruct digits as [| a digits]; [congruence |].
    assert (Hd : exists v, digit a = Some v).
    { unfold Spec.all_digits in Hall. cbn in Hall.
      apply andb_true_iff in Hall as [Ha _].
      destruct (digit a) as [v |]; [exists v; reflexivity | discriminate Ha]. }
    destruct Hd as [v Hd].
    change (String a digits +:+ tail) with (String a (digits +:+ tail)).
    rewrite (stoi_leading_digit a _ v Hd), (stoi_leading_digit a digits v Hd).
    change (String a (digits +:+ tail)) with (String a digits +:+ tail).
    rewrite (read_digits_app tail Htail (String a digits) None Hall).
    reflexivity.
  - intros a rest Hsp.
    rewrite !(parseServerAddress_split host _ host0 port0 Hno).
    rewrite (stoi_space a rest Hsp). reflexivity.
Qed.

Lemma parseServerAddress_lenient_port_witness :
  parseServerAddress "example.org:8080/status" "" 0
  = parseServerAddress "example.org:8080" "" 0.
Proof.
  destruct (parseServerAddress_lenient_port "example.org" "" 0) as [Htail _].
  - reflexivity.
  - apply (Htail "8080" "/status").
    + discriminate.
    + reflexivity.
    + reflexivity.
Defined.

Variable inet_pton4 : string -> bool.
Variable dns_answer : string -> World -> option string.
Variable dns_latency : string -> World -> Z.
Variable ticks_per_second : Z.
Variable tcp_connect : string -> Z -> Z -> Net -> bool.
Variable tcp_latency : string -> Z -> Z -> Net -> Z.

(** X5. The default probe gives up before the network when it can: an
    address whose port cannot be read is answered false with the cache, the
    resolver and the connection log untouched; a host that the resolver
    cannot resolve is answered false after that one resolver call, with no
    connection attempted and nothing cached.  A probe attempts at most one
    connection, and answers true only after attempting one. *)
Theorem defaultPingImplementation_short_cuts (serverAddress : string)
    (timeout : Z) (this : PingServer.t) (n : Net) :
  let out :=
    defaultPingImplementation inet_pton4 dns_answer dns_latency ticks_per_second
                              tcp_connect tcp_latency serverAddress timeout this n in
  ((parseServerAddress serverAddress EmptyString 0).1.1 = false ->
   out = (false, this, n)) /\
  (forall host port,
     parseServerAddress serverAddress EmptyString 0 = (true, host, port) ->
     inet_pton4 host = false ->
     Spec.stale this host (world n) ->
     dns_answer host (world n) = None ->
     out.1.1 = false /\ out.1.2 = this /\
     connections out.2 = connections n /\
     resolutions (world out.2) = host :: resolutions (world n)) /\
  (connections out.2 = connections n \/
   exists ip port, 0 <= port < 2 ^ 16 /\
                   connections out.2 = (ip, port) :: connections n) /\
  (out.1.1 = true -> connections out.2 <> connections n).
Proof.
  cbn zeta. unfold defaultPingImplementation.
  destruct (parseServerAddress serverAddress EmptyString 0) as [[parsed host] port].
  cbn [fst snd]. destruct parsed; cbn [negb].
  - repeat apply conj.
    + discriminate.
    + intros host' port' [= <- <-] Hlit Hstale Hfail.
      rewrite (resolveHostname_miss inet_pton4 dns_answer dns_latency
                 ticks_per_second host this (world n) Hlit Hstale), Hfail.
      cbn. repeat split.
    + destruct (resolveHostname _ _ _ _ host this (world n)) as [[ip this1] w1].
      destruct ip as [| a ip]; cbn; [left; reflexivity |].
      right. eexists _, _. split; [| reflexivity].
      unfold wrap16. apply Z.mod_pos_bound. lia.
    + destruct (resolveHostname _ _ _ _ host this (world n)) as [[ip this1] w1].
      destruct ip as [| a ip]; cbn; [discriminate |].
      intros _ Heq. apply (f_equal length) in Heq. cbn in Heq. lia.
  - repeat apply conj.
    + reflexivity.
    + intros host' port' [=].
    + left. reflexivity.
    + discriminate.
Qed.

(** X6. The port is not checked against the range of ports: it reaches
    [connect] modulo [2^16], so two addresses with the same host whose
    ports differ by a multiple of 65536 are probed in the same way. *)
Theorem defaultPingImplementation_port_modulo (host rest1 rest2 : string)
    (port1 port2 timeout : Z) (this : PingServer.t) (n : Net) :
  Spec.no_colon host ->
  stoi rest1 = inr port1 -> stoi rest2 = inr port2 ->
  port1 mod 2 ^ 16 = port2 mod 2 ^ 16 ->
  defaultPingImplementation inet_pton4 dns_answer dns_latency ticks_per_second
                            tcp_connect tcp_latency
                            (host +:+ ":" +:+ rest1) timeout this n
  = defaultPingImplementation inet_pton4 dns_answer dns_latency ticks_per_second
                              tcp_connect tcp_latency
                              (host +:+ ":" +:+ rest2) timeout this n.
Proof.
  intros Hno H1 H2 Hmod. unfold defaultPingImplementation.
  rewrite !(parseServerAddress_split host _ _ _ Hno), H1, H2. cbn [negb].
  destruct (resolveHostname _ _ _ _ host this (world n)) as [[ip this1] w1].
  destruct ip as [| a ip]; [reflexivity |].
  unfold wrap16. rewrite Hmod. reflexivity.
Qed.

End DefaultProbe.

Lemma defaultPingImplementation_short_cuts_witness :
  let inet_pton4 := fun s => bool_decide (s = "10.0.0.1") in
  let dns_answer := fun (_ : string) (_ : PingServer.World) => @None string in
  let dns_latency := fun (_ : string) (_ : PingServer.World) => 5 in
  let tcp_connect := fun (_ : string) (_ _ : Z) (_ : PingServer.Net) => true in
  let tcp_latency := fun (_ : string) (_ _ : Z) (_ : PingServer.Net) => 1 in
  let this := PingServer.new 1000 5000 in
  let n := {| PingServer.world :=
                {| PingServer.steady_clock_now := 0; PingServer.resolutions := [] |};
              PingServer.connections := [] |} in
  PingServer.defaultPingImplementation inet_pton4 dns_answer dns_latency 1000
    tcp_connect tcp_latency "10.0.0.1:http" 1000 this n = (false, this, n) /\
  PingServer.connections
    (PingServer.defaultPingImplementation inet_pton4 dns_answer dns_latency 1000
       tcp_connect tcp_latency "nowhere.invalid:80" 1000 this n).2 = [].
Proof.
  intros inet_pton4 dns_answer dns_latency tcp_connect tcp_latency this n.
  split.
  - apply (defaultPingImplementation_short_cuts inet_pton4 dns_answer dns_latency
             1000 tcp_connect tcp_latency "10.0.0.1:http" 1000 this n).
    reflexivity.
  - destruct (defaultPingImplementation_short_cuts inet_pton4 dns_answer dns_latency
                1000 tcp_connect tcp_latency "nowhere.invalid:80" 1000 this n)
      as (_ & Hdns & _).
    destruct (Hdns "nowhere.invalid" 80) as (_ & _ & Hconn & _);
      [reflexivity | reflexivity | left; reflexivity | reflexivity |].
    exact Hconn.
Defined.

Lemma defaultPingImplementation_port_modulo_witness :
  let inet_pton4 := fun s => bool_decide (s = "10.0.0.1") in
  let dns_answer := fun (_ : string) (_ : PingServer.World) => @None string in
  let dns_latency := fun (_ : string) (_ : PingServer.World) => 5 in
  let tcp_connect := fun (_ : string) (port _ : Z) (_ : PingServer.Net) =>
    bool_decide (port = 80) in
  let tcp_latency := fun (_ : string) (_ _ : Z) (_ : PingServer.Net) => 1 in
  let this := PingServer.new 1000 5000 in
  let n := {| PingServer.world :=
                {| PingServer.steady_clock_now := 0; PingServer.resolutions := [] |};
              PingServer.connections := [] |} in
  PingServer.defaultPingImplementation inet_pton4 dns_answer dns_latency 1000
    tcp_connect tcp_latency "10.0.0.1:65616" 1000 this n
  = PingServer.defaultPingImplementation inet_pton4 dns_answer dns_latency 1000
      tcp_connect tcp_latency "10.0.0.1:80" 1000 this n.
Proof.
  intros inet_pton4 dns_answer dns_latency tcp_connect tcp_latency this n.
  apply (defaultPingImplementation_port_modulo inet_pton4 dns_answer dns_latency
           1000 tcp_connect tcp_latency "10.0.0.1" "65616" "80" 65616 80);
    reflexivity.
Defined.

(** ** The resolver cache, continued *)

Section ResolverCache.
Import Machine PingServer.

Variable inet_pton4 : string -> bool.
Variable dns_answer : string -> World -> option string.
Variable dns_latency : string -> World -> Z.
Variable ticks_per_second : Z.

(** X7. Failures are not remembered: a resolution that failed leaves the
    prober as it was, so the next resolution of that hostname, at the same
    or a later time, calls the resolver again. *)
Theorem resolveHostname_failure_not_cached (hostname : string)
    (this : PingServer.t) (w w' : World) :
  inet_pton4 hostname = false ->
  Spec.stale this hostname w ->
  dns_answer hostname w = None ->
  steady_clock_now w <= steady_clock_now w' ->
  let first :=
    resolveHostname inet_pton4 dns_answer dns_latency ticks_per_second
                    hostname this w in
  let second :=
    resolveHostname inet_pton4 dns_answer dns_latency ticks_per_second
                    hostname first.1.2 w' in
  first.1.1 = EmptyString /\
  first.1.2 = this /\
  resolutions second.2 = hostname :: resolutions w'.
Proof.
  intros Hlit Hstale Hfail Hlater. cbn zeta.
  rewrite (resolveHostname_miss _ _ _ _ hostname this w Hlit Hstale), Hfail.
  cbn [fst snd]. repeat split.
  rewrite (resolveHostname_miss _ _ _ _ hostname this w' Hlit).
  - destruct (dns_answer hostname w'); reflexivity.
  - destruct Hstale as [Hnone | (entry & Hentry & Hexp)].
    + left. exact Hnone.
    + right. exists entry. split; [exact Hentry | lia].
Qed.

(** X8. A resolution touches the entry of its own hostname only: the
    entries of all other hostnames and the configured TTL are as before,
    the resolver is called at most once, and the clock is only moved by that
    call. *)
Theorem resolveHostname_frame (hostname : string) (this : PingServer.t) (w : World) :
  let out :=
    resolveHostname inet_pton4 dns_answer dns_latency ticks_per_second
                    hostname this w in
  (forall other, other <> hostname ->
                 _dnsCache out.1.2 !! other = _dnsCache this !! other) /\
  _dnsCacheTTL out.1.2 = _dnsCacheTTL this /\
  _timeout out.1.2 = _timeout this /\
  (out.2 = w \/
   out.2 = (getaddrinfo dns_answer dns_latency hostname w).2) /\
  (out.1.1 <> EmptyString -> inet_pton4 hostname = false ->
   exists entry, _dnsCache out.1.2 !! hostname = Some entry
                 /\ resolvedIP entry = out.1.1).
Proof.
  cbn zeta. unfold resolveHostname.
  destruct (inet_pton4 hostname) eqn:Hlit.
  - cbn. repeat split; [left; reflexivity | discriminate].
  - destruct (_dnsCache this !! hostname) as [entry |] eqn:Hentry.
    + destruct (steady_clock_now w <? expiryTime entry) eqn:Hfresh.
      * cbn. repeat split; [left; reflexivity |].
        intros _ _. exists entry. split; [exact Hentry | reflexivity].
      * cbn. destruct (dns_answer hostname w) as [ip |]; cbn.
        -- repeat split; [| right; reflexivity |].
           ++ intros other Hne. apply lookup_insert_ne. congruence.
           ++ intros _ _. eexists. split; [apply lookup_insert_eq | reflexivity].
        -- repeat split; [right; reflexivity | congruence].
    + cbn. destruct (dns_answer hostname w) as [ip |]; cbn.
      * repeat split; [| right; reflexivity |].
        -- intros other Hne. apply lookup_insert_ne. congruence.
        -- intros _ _. eexists. split; [apply lookup_insert_eq | reflexivity].
      * repeat split; [right; reflexivity | congruence].
Qed.

(** X9. [clearDNSCache] forgets every entry: after it, the resolution of
    any hostname that is not a literal address calls the resolver, whatever
    the clock reads, and a literal address is still returned as it is. *)
Theorem clearDNSCache_forgets (hostname : string) (this : PingServer.t) (w : World) :
  let out :=
    resolveHostname inet_pton4 dns_answer dns_latency ticks_per_second
                    hostname (clearDNSCache this) w in
  (inet_pton4 hostname = false ->
   resolutions out.2 = hostname :: resolutions w) /\
  (inet_pton4 hostname = true -> out = (hostname, clearDNSCache this, w)).
Proof.
  cbn zeta. split.
  - intros Hlit. rewrite (resolveHostname_miss _ _ _ _ hostname _ w Hlit).
    + destruct (dns_answer hostname w); reflexivity.
    + left. apply lookup_empty.
  - apply resolveHostname_literal.
Qed.

End ResolverCache.

Lemma resolveHostname_failure_not_cached_witness :
  let inet_pton4 := fun s => bool_decide (s = "10.0.0.1") in
  let dns_answer := fun (_ : string) (_ : PingServer.World) => @None string in
  let dns_latency := fun (_ : string) (_ : PingServer.World) => 5 in
  let this := PingServer.new 1000 5000 in
  let w := {| PingServer.steady_clock_now := 0; PingServer.resolutions := [] |} in
  let first :=
    PingServer.resolveHostname inet_pton4 dns_answer dns_latency 1000
                               "nowhere.invalid" this w in
  PingServer.resolutions
    (PingServer.resolveHostname inet_pton4 dns_answer dns_latency 1000
                                "nowhere.invalid" first.1.2 first.2).2
  = ["nowhere.invalid"; "nowhere.invalid"].
Proof.
  intros inet_pton4 dns_answer dns_latency this w first.
  destruct (resolveHostname_failure_not_cached inet_pton4 dns_answer dns_latency
              1000 "nowhere.invalid" this w first.2) as (_ & _ & Hagain).
  - reflexivity.
  - left. reflexivity.
  - reflexivity.
  - vm_compute. discriminate.
  - exact Hagain.
Defined.

Lemma clearDNSCache_forgets_witness :
  let inet_pton4 := fun s => bool_decide (s = "10.0.0.1") in
  let dns_answer := fun (_ : string) (_ : PingServer.World) => Some "93.184.216.34" in
  let dns_latency := fun (_ : string) (_ : PingServer.World) => 5 in
  let cached :=
    PingServer.set_dnsCache
      {[ "example.org" := {| PingServer.resolvedIP := "93.184.216.34";
                             PingServer.expiryTime := 300005 |} ]}
      (PingServer.new 1000 5000) in
  let w := {| PingServer.steady_clock_now := 0; PingServer.resolutions := [] |} in
  PingServer.resolutions
    (PingServer.resolveHostname inet_pton4 dns_answer dns_latency 1000
                                "example.org" (PingServer.clearDNSCache cached) w).2
  = ["example.org"].
Proof.
  intros inet_pton4 dns_answer dns_latency cached w.
  apply (clearDNSCache_forgets inet_pton4 dns_answer dns_latency 1000
           "example.org" cached w).
  reflexivity.
Defined.

(** ** The pool, continued *)

Section PoolInvariants.
Import Machine LoadBalancer.

Lemma addServer_cases (h : Heap) (p : ServerPtr) (this : LoadBalancer.t) :
  (Spec.present h (Server.getServerAddress (h p)) (_serversList this)
   /\ addServer h (Some p) this = (false, this)) \/
  (~ Spec.present h (Server.getServerAddress (h p)) (_serversList this)
   /\ addServer h (Some p) this
      = (true, set_serversList (_serversList this ++ [p]) this)).
Proof.
  unfold addServer.
  destruct (list_find _ _) as [[i x] |] eqn:Hfind.
  - left. split; [| reflexivity].
    apply list_find_Some in Hfind as (Hix & Haddr & _).
    exists x. split; [apply list_elem_of_lookup_2 in Hix; exact Hix | exact Haddr].
  - right. split; [| reflexivity].
    apply list_find_None in Hfind. rewrite list.Forall_forall in Hfind.
    intros (q & Hq & Haddr). exact (Hfind q Hq Haddr).
Qed.

Lemma unique_addresses_filter (h : Heap) (address : string) (l : list ServerPtr) :
  Spec.unique_addresses h l ->
  Spec.unique_addresses h
    (filter (fun s => Server.getServerAddress (h s) ≠ address) l).
Proof.
  unfold Spec.unique_addresses. induction l as [| q l IH]; intros Hnd.
  - exact Hnd.
  - rewrite fmap_cons in Hnd. apply list.NoDup_cons in Hnd as [Hq Hl].
    rewrite filter_cons. destruct (decide (Server.getServerAddress (h q) ≠ address)).
    + rewrite fmap_cons. apply list.NoDup_cons. split; [| exact (IH Hl)].
      intros Hin. apply Hq.
      apply list_elem_of_fmap in Hin as (x & Hx & Hin).
      apply list_elem_of_filter in Hin as [_ Hin].
      apply list_elem_of_fmap. exists x. split; assumption.
    + exact (IH Hl).
Qed.

(** X10. The pool invariant "no two targets have the same address" is kept
    by both mutations: if it holds before [addServer] or [removeServer], it
    holds after, whatever the argument and the result. *)
Theorem pool_addresses_stay_unique (h : Heap) (this : LoadBalancer.t) :
  Spec.unique_addresses h (_serversList this) ->
  (forall server,
     Spec.unique_addresses h (_serversList (addServer h server this).2)) /\
  (forall address,
     Spec.unique_addresses h (_serversList (removeServer h address this).2)).
Proof.
  intros Huniq. split.
  - intros [p |]; [| exact Huniq].
    destruct (addServer_cases h p this) as [[_ ->] | [Habs ->]]; [exact Huniq |].
    cbn. unfold Spec.unique_addresses in *. rewrite fmap_app.
    apply list.NoDup_app. repeat split.
    + exact Huniq.
    + intros x Hx Hin. apply list_elem_of_fmap in Hx as (q & -> & Hq).
      cbn in Hin. apply list_elem_of_singleton in Hin.
      apply Habs. exists q. split; assumption.
    + apply list.NoDup_singleton.
  - intros address. cbn. apply unique_addresses_filter. exact Huniq.
Qed.

Lemma pool_addresses_stay_unique_witness :
  let h : Heap := fun p =>
    match p with
    | O => Server.new "10.0.0.1:80" 1 0
    | S O => Server.new "10.0.0.2:80" 1 0
    | _ => Server.new "10.0.0.1:80" 2 0
    end in
  let this := LoadBalancer.new [0%nat; 1%nat] ROUND_ROBIN 5000 3 in
  Spec.unique_addresses h (_serversList (addServer h (Some 2%nat) this).2).
Proof.
  intros h this.
  destruct (pool_addresses_stay_unique h this) as [Hadd _].
  - unfold Spec.unique_addresses. cbn.
    apply list.NoDup_cons. split.
    + intros Hin. apply list_elem_of_singleton in Hin. discriminate Hin.
    + apply list.NoDup_singleton.
  - apply Hadd.
Defined.

Lemma set_serversList_twice (l k : list ServerPtr) (this : LoadBalancer.t) :
  set_serversList l (set_serversList k this) = set_serversList l this.
Proof. reflexivity. Qed.

(** X11. Adding and removing compose as expected: a server added under a
    new address is removed again by [removeServer] of that address, which
    returns true and gives back the pool as it was; a second [removeServer]
    of the same address returns false; and once an address is removed a
    server with that address can be added. *)
Theorem addServer_removeServer_compose (h : Heap) (this : LoadBalancer.t) :
  (forall p,
     ~ Spec.present h (Server.getServerAddress (h p)) (_serversList this) ->
     removeServer h (Server.getServerAddress (h p)) (addServer h (Some p) this).2
     = (true, this)) /\
  (forall address,
     (removeServer h address (removeServer h address this).2).1 = false) /\
  (forall p,
     (addServer h (Some p)
                (removeServer h (Server.getServerAddress (h p)) this).2).1 = true).
Proof.
  assert (Hgone : forall address,
            ~ Spec.present h address
                (filter (fun s => Server.getServerAddress (h s) ≠ address)
                        (_serversList this))).
  { intros address (q & Hq & Haddr).
    apply list_elem_of_filter in Hq as [Hne _]. exact (Hne Haddr). }
  repeat apply conj.
  - intros p Habs.
    destruct (addServer_cases h p this) as [[Hpres _] | [_ ->]]; [tauto |].
    unfold removeServer. cbn [snd _serversList set_serversList].
    rewrite list.filter_app, (absent_filter h _ _ Habs).
    rewrite filter_cons_False by (intros Hne; exact (Hne eq_refl)).
    rewrite filter_nil, app_nil_r, length_app. cbn [length].
    rewrite bool_decide_eq_true_2 by lia.
    rewrite set_serversList_twice, set_serversList_same. reflexivity.
  - intros address. unfold removeServer. cbn [snd fst _serversList set_serversList].
    rewrite (absent_filter h address _ (Hgone address)).
    apply bool_decide_eq_false_2. lia.
  - intros p.
    destruct (addServer_cases h p (removeServer h (Server.getServerAddress (h p)) this).2)
      as [[Hpres _] | [_ ->]]; [| reflexivity].
    destruct (Hgone _ Hpres).
Qed.

Lemma addServer_removeServer_compose_witness :
  let h : Heap := fun p =>
    match p with
    | O => Server.new "10.0.0.1:80" 1 0
    | S O => Server.new "10.0.0.2:80" 1 0
    | _ => Server.new "10.0.0.3:80" 2 0
    end in
  let this := LoadBalancer.new [0%nat; 1%nat] ROUND_ROBIN 5000 3 in
  removeServer h "10.0.0.3:80" (addServer h (Some 2%nat) this).2 = (true, this).
Proof.
  intros h this.
  destruct (addServer_removeServer_compose h this) as (Hback & _).
  apply (Hback 2%nat). intros (q & Hq & Haddr).
  apply elem_of_cons in Hq as [-> | Hq]; [discriminate Haddr |].
  apply elem_of_cons in Hq as [-> | Hq]; [discriminate Haddr |].
  apply elem_of_nil in Hq. exact Hq.
Defined.

Lemma count_if_le {A : Type} (pred : A -> bool) (l : list A) :
  (count_if pred l <= length l)%nat.
Proof. induction l as [| x l IH]; cbn; [lia |]. destruct (pred x); lia. Qed.

Lemma count_if_zero {A : Type} (pred : A -> bool) (l : list A) :
  count_if pred l = 0%nat <-> forall x, x ∈ l -> pred x = false.
Proof.
  induction l as [| x l IH]; cbn.
  - split; [intros _ y Hy; apply elem_of_nil in Hy; destruct Hy | reflexivity].
  - destruct (pred x) eqn:Hx; cbn.
    + split; [lia |]. intros Hall. specialize (Hall x (list_elem_of_here x l)). congruence.
    + rewrite IH. split.
      * intros Hall y Hy. apply elem_of_cons in Hy as [-> | Hy]; [exact Hx | exact (Hall y Hy)].
      * intros Hall y Hy. apply Hall. right. exact Hy.
Qed.

Lemma count_if_pos {A : Type} (pred : A -> bool) (l : list A) :
  (0 < count_if pred l)%nat <-> exists x, x ∈ l /\ pred x = true.
Proof.
  induction l as [| x l IH]; cbn.
  - split; [lia |]. intros (y & Hy & _). apply elem_of_nil in Hy. destruct Hy.
  - destruct (pred x) eqn:Hx; cbn.
    + split; [| lia]. intros _. exists x. split; [left | exact Hx].
    + rewrite IH. split.
      * intros (y & Hy & Hpy). exists y. split; [right; exact Hy | exact Hpy].
      * intros (y & Hy & Hpy). exists y. split; [| exact Hpy].
        apply elem_of_cons in Hy as [-> | Hy]; [congruence | exact Hy].
Qed.

Lemma unique_remove_one (h : Heap) (address : string) (l : list ServerPtr) :
  Spec.unique_addresses h l ->
  Spec.present h address l ->
  S (length (filter (fun s => Server.getServerAddress (h s) ≠ address) l))
  = length l.
Proof.
  unfold Spec.unique_addresses. induction l as [| q l IH]; intros Hnd Hpres.
  - destruct Hpres as (x & Hx & _). apply elem_of_nil in Hx. destruct Hx.
  - rewrite fmap_cons in Hnd. apply list.NoDup_cons in Hnd as [Hq Hl].
    rewrite filter_cons.
    destruct (decide (Server.getServerAddress (h q) ≠ address)) as [Hne | Heq].
    + cbn. f_equal. apply IH; [exact Hl |].
      destruct Hpres as (x & Hx & Hax). exists x. split; [| exact Hax].
      apply elem_of_cons in Hx as [-> | Hx]; [congruence | exact Hx].
    + assert (Haddr : Server.getServerAddress (h q) = address).
      { destruct (decide (Server.getServerAddress (h q) = address)); tauto. }
      rewrite absent_filter; [reflexivity |].
      intros (x & Hx & Hax). apply Hq.
      apply list_elem_of_fmap. exists x. split; [congruence | exact Hx].
Qed.

Lemma present_or_absent (h : Heap) (address : string) (l : list ServerPtr) :
  Spec.present h address l \/ ~ Spec.present h address l.
Proof.
  induction l as [| q l IH].
  - right. intros (x & Hx & _). apply elem_of_nil in Hx. exact Hx.
  - destruct (decide (Server.getServerAddress (h q) = address)) as [Heq | Hne].
    + left. exists q. split; [left | exact Heq].
    + destruct IH as [(x & Hx & Hax) | Habs].
      * left. exists x. split; [right; exact Hx | exact Hax].
      * right. intros (x & Hx & Hax).
        apply elem_of_cons in Hx as [-> | Hx]; [exact (Hne Hax) |].
        apply Habs. exists x. split; assumption.
Qed.

(** X12. The counts follow the pool: the number of healthy servers never
    exceeds the number of servers and is 0 exactly when no target is alive
    and healthy; [addServer] raises the server count by one exactly when it
    returns true; [removeServer] returns true exactly when the count went
    down, and takes off exactly one when addresses are unique. *)
Theorem server_counts (h : Heap) (this : LoadBalancer.t) :
  (getHealthyServerCount h this <= getServerCount this)%nat /\
  (getHealthyServerCount h this = 0%nat <->
   forall q, q ∈ _serversList this -> Spec.usable h q = false) /\
  (forall server,
     getServerCount (addServer h server this).2
     = (getServerCount this + if (addServer h server this).1 then 1 else 0)%nat) /\
  (forall address,
     (removeServer h address this).1 = true <->
     (getServerCount (removeServer h address this).2 < getServerCount this)%nat) /\
  (forall address,
     Spec.unique_addresses h (_serversList this) ->
     (removeServer h address this).1 = true ->
     S (getServerCount (removeServer h address this).2) = getServerCount this).
Proof.
  unfold getHealthyServerCount, getServerCount. split_and!.
  - apply count_if_le.
  - apply count_if_zero.
  - intros [p |]; [| cbn; lia].
    destruct (addServer_cases h p this) as [[_ ->] | [_ ->]]; cbn; [lia |].
    rewrite length_app. cbn. lia.
  - intros address. unfold removeServer. cbn [fst snd _serversList set_serversList].
    apply bool_decide_eq_true.
  - intros address Huniq Hres.
    destruct (present_or_absent h address (_serversList this)) as [Hpres | Habs].
    + unfold removeServer. cbn [snd _serversList set_serversList].
      apply unique_remove_one; assumption.
    + exfalso. unfold removeServer in Hres. cbn [fst] in Hres.
      rewrite (absent_filter h address _ Habs) in Hres.
      apply bool_decide_eq_true in Hres. lia.
Qed.

Lemma server_counts_witness :
  let h : Heap := fun p =>
    match p with
    | O => Server.new "10.0.0.1:80" 1 0
    | _ => Server.new "10.0.0.2:80" 1 0
    end in
  let this := LoadBalancer.new [0%nat; 1%nat] ROUND_ROBIN 5000 3 in
  S (getServerCount (removeServer h "10.0.0.2:80" this).2) = getServerCount this.
Proof.
  intros h this.
  destruct (server_counts h this) as (_ & _ & _ & _ & Hone).
  apply Hone.
  - unfold Spec.unique_addresses. cbn.
    apply list.NoDup_cons. split.
    + intros Hin. apply list_elem_of_singleton in Hin. discriminate Hin.
    + apply list.NoDup_singleton.
  - reflexivity.
Defined.

End PoolInvariants.

(** ** What a selection returns *)

Section SelectionSound.
Import Machine LoadBalancer.

Variable h : Heap.
Variable l : list ServerPtr.
Variable c : Z.
Hypothesis fits : Spec.cursor_fits c (length l).

(** What the first loop found, read back from its result. *)
Lemma firstPass_sound (todo : nat) :
  forall (i : nat) (fb : option ServerPtr) (r : scan),
    (i + todo <= length l)%nat ->
    firstPass h l c (Z.of_nat (length l)) todo (Z.of_nat i) fb = Some r ->
    match r with
    | Found index p =>
        exists k, (k < length l)%nat /\
                  index = Z.of_nat (Spec.slot c (length l) k) /\
                  l !! Spec.slot c (length l) k = Some p /\
                  Spec.usable h p = true
    | NotFound fb' =>
        (forall j q, (i <= j < i + todo)%nat ->
                     l !! Spec.slot c (length l) j = Some q ->
                     Spec.usable h q = false) /\
        (fb' = fb \/
         exists f, fb' = Some f /\ f ∈ l /\ Server.isAlive (h f) = true)
    end.
Proof.
  induction todo as [| todo IH]; intros i fb r Hn Hres.
  - cbn in Hres. injection Hres as <-. split; [intros; lia | left; reflexivity].
  - destruct (slot_lookup l c i) as [q Hq]; [lia |].
    rewrite (firstPass_step h l c fits todo i fb q) in Hres by (lia || assumption).
    destruct (Server.isAlive (h q)) eqn:Ha; [destruct (Server.isHealthy (h q)) eqn:Hh |].
    + injection Hres as <-. exists i. repeat split; [lia | exact Hq |].
      unfold Spec.usable. rewrite Ha, Hh. reflexivity.
    + apply IH in Hres; [| lia]. destruct r as [index p | fb']; [exact Hres |].
      destruct Hres as [Hnone Hfb]. split.
      * intros j x Hj Hx. destruct (decide (j = i)) as [-> | Hji].
        -- rewrite Hq in Hx. injection Hx as <-.
           unfold Spec.usable. rewrite Ha, Hh. reflexivity.
        -- apply (Hnone j); [lia | exact Hx].
      * destruct Hfb as [-> | Hex]; [| right; exact Hex].
        destruct fb as [f |]; [left; reflexivity |].
        right. exists q. repeat split; [| exact Ha].
        apply list_elem_of_lookup_2 in Hq. exact Hq.
    + apply IH in Hres; [| lia]. destruct r as [index p | fb']; [exact Hres |].
      destruct Hres as [Hnone Hfb]. split; [| exact Hfb].
      intros j x Hj Hx. destruct (decide (j = i)) as [-> | Hji].
      * rewrite Hq in Hx. injection Hx as <-.
        unfold Spec.usable. rewrite Ha. reflexivity.
      * apply (Hnone j); [lia | exact Hx].
Qed.

(** A server that [select] returns is in the list and alive; it is healthy
    unless no target of the list is alive and healthy; and the index that
    comes with it is an index of the list. *)
Lemma select_sound (p : ServerPtr) (c' : Z) :
  select h l c = Some (Some p, c') ->
  p ∈ l /\ Server.isAlive (h p) = true /\
  (Server.isHealthy (h p) = true \/ forall q, q ∈ l -> Spec.usable h q = false) /\
  0 <= c' < Z.of_nat (length l).
Proof.
  unfold select. rewrite firstPass_whole.
  destruct (firstPass h l c (Z.of_nat (length l)) (length l) (Z.of_nat 0) None)
    as [r |] eqn:Hscan; cbn; [| discriminate].
  apply firstPass_sound in Hscan; [| lia].
  destruct r as [index q | [f |]].
  - intros [= -> <-]. destruct Hscan as (k & Hk & -> & Hq & Hup).
    unfold Spec.usable in Hup. apply andb_true_iff in Hup as [Ha Hh].
    repeat split.
    + apply list_elem_of_lookup_2 in Hq. exact Hq.
    + exact Ha.
    + left. exact Hh.
    + apply Z.mod_pos_bound. lia.
    + apply Z.mod_pos_bound. lia.
  - destruct Hscan as [Hnone [Hfb | (f' & Hf' & Hin & Ha)]]; [discriminate Hfb |].
    injection Hf' as <-.
    destruct (fallbackIndex_first l f (length l) 0) as (k & Hk & Hidx & _);
      [lia | intros j Hj; lia | exact Hin |].
    change 0 with (Z.of_nat 0). rewrite Hidx. cbn.
    intros [= <- <-]. repeat split.
    + exact Hin.
    + exact Ha.
    + right. intros q Hq.
      apply list_elem_of_lookup_1 in Hq as [j Hj].
      destruct (slot_covers l c j) as (i & Hi & Hslot).
      { apply lookup_lt_Some in Hj. exact Hj. }
      apply (Hnone i); [lia | rewrite Hslot; exact Hj].
    + apply Z.mod_pos_bound. lia.
    + apply Z.mod_pos_bound. lia.
  - discriminate.
Qed.

End SelectionSound.

Section RoundRobinSound.
Import Machine LoadBalancer RoundRobinLoadBalancer.

(** X13. Round robin never hands out a target that is down when a better
    one exists: a server returned by [getNextServer] is a target of the
    pool and is alive, and it is healthy unless no target of the pool is
    alive and healthy.  The pool is left as it is, and the index stored
    with a returned server is below the pool size. *)
Theorem getNextServer_sound (h : Heap) (this this' : RoundRobinLoadBalancer.t)
    (p : ServerPtr) :
  Spec.cursor_fits (_currentServerIndex this) (length (_serversList (base this))) ->
  getNextServer h this = Some (Some p, this') ->
  p ∈ _serversList (base this) /\
  Server.isAlive (h p) = true /\
  (Server.isHealthy (h p) = true \/
   forall q, q ∈ _serversList (base this) -> Spec.usable h q = false) /\
  base this' = base this /\
  0 <= _currentServerIndex this' < Z.of_nat (length (_serversList (base this))).
Proof.
  intros Hfit. unfold getNextServer.
  destruct (_serversList (base this)) as [| q rest] eqn:Hpool; [discriminate |].
  destruct (select h (q :: rest) (_currentServerIndex this)) as [[r c'] |] eqn:Hsel;
    cbn; [| discriminate].
  intros [= -> <-]. cbn.
  destruct (select_sound h _ _ Hfit p c' Hsel) as (Hin & Ha & Hh & Hc).
  split_and!; try assumption; try reflexivity; cbn [length] in Hc; lia.
Qed.

Lemma getNextServer_sound_witness :
  let h : Heap := fun p =>
    match p with
    | O => Server.setAlive false (Server.new "10.0.0.1:80" 1 0)
    | _ => Server.new "10.0.0.2:80" 1 0
    end in
  let this :=
    {| base := LoadBalancer.new [0%nat; 1%nat] ROUND_ROBIN 5000 3;
       _currentServerIndex := 0 |} in
  Server.isAlive (h 1%nat) = true /\
  forall q, q ∈ [0%nat; 1%nat] -> Spec.usable h q = false.
Proof.
  intros h this.
  destruct (getNextServer_sound h this (set_currentServerIndex 0 this) 1%nat)
    as (_ & Ha & Hh & _).
  - unfold Spec.cursor_fits, PTRDIFF_MAX. cbn. lia.
  - reflexivity.
  - split; [exact Ha |].
    destruct Hh as [Hh | Hnone]; [discriminate Hh | exact Hnone].
Defined.

(** X14. The healthy count and the selection agree: the count of healthy
    servers is positive exactly when [getNextServer] returns a target that
    is alive and healthy. *)
Theorem healthy_count_selects_healthy (h : Heap) (this : RoundRobinLoadBalancer.t) :
  Spec.cursor_fits (_currentServerIndex this) (length (_serversList (base this))) ->
  (0 < getHealthyServerCount h (base this))%nat <->
  exists p this', getNextServer h this = Some (Some p, this')
                  /\ Spec.usable h p = true.
Proof.
  intros Hfit. unfold getHealthyServerCount. rewrite count_if_pos. split.
  - intros (q & Hq & Hup).
    assert (Hne : _serversList (base this) <> []).
    { intros Hnil. rewrite Hnil in Hq. apply elem_of_nil in Hq. exact Hq. }
    destruct (select_total h _ _ Hfit) as [[r c'] Hsel].
    rewrite (getNextServer_select h this Hne), Hsel. cbn.
    destruct r as [p |].
    + exists p, (set_currentServerIndex c' this). split; [reflexivity |].
      destruct (select_sound h _ _ Hfit p c' Hsel) as (_ & Ha & [Hh | Hnone] & _).
      * unfold Spec.usable. rewrite Ha, Hh. reflexivity.
      * unfold Spec.usable in Hnone. rewrite (Hnone q Hq) in Hup. discriminate Hup.
    + exfalso. pose proof (select_nothing_inv h _ _ Hfit c' Hsel q Hq) as Hdead.
      rewrite Hdead in Hup. discriminate Hup.
  - intros (p & this' & Hcall & Hup). exists p. split; [| exact Hup].
    unfold getNextServer in Hcall.
    destruct (_serversList (base this)) as [| q rest] eqn:Hpool; [discriminate |].
    destruct (select h (q :: rest) (_currentServerIndex this)) as [[r c'] |] eqn:Hsel;
      cbn in Hcall; [| discriminate].
    injection Hcall as -> _.
    apply (select_sound h _ _ Hfit p c' Hsel).
Qed.

Lemma healthy_count_selects_healthy_witness :
  let h : Heap := fun p =>
    match p with
    | O => Server.new "10.0.0.1:80" 1 0
    | _ => Server.setHealthy true (Server.new "10.0.0.2:80" 1 0)
    end in
  let this :=
    {| base := LoadBalancer.new [0%nat; 1%nat] ROUND_ROBIN 5000 3;
       _currentServerIndex := 0 |} in
  exists p this', getNextServer h this = Some (Some p, this')
                  /\ Spec.usable h p = true.
Proof.
  intros h this.
  apply (healthy_count_selects_healthy h this).
  - unfold Spec.cursor_fits, PTRDIFF_MAX. cbn. lia.
  - cbn. lia.
Defined.

End RoundRobinSound.

(** ** Cycles of selections *)

Section Cycling.
Import Machine LoadBalancer.

Variable h : Heap.
Variable l : list ServerPtr.
Hypothesis nonempty : (1 <= length l)%nat.

(** One selection returns the target under the cursor and moves the cursor
    one place on. *)
Hypothesis step :
  forall c,
    Spec.cursor_fits c (length l) ->
    exists p,
      l !! Spec.slot c (length l) 0 = Some p /\
      select h l c
      = Some (Some p,
              (Z.of_nat (Spec.slot c (length l) 0) + 1) mod Z.of_nat (length l)).

Lemma next_cursor_fits (c : Z) :
  Spec.cursor_fits c (length l) ->
  Spec.cursor_fits
    ((Z.of_nat (Spec.slot c (length l) 0) + 1) mod Z.of_nat (length l)) (length l).
Proof.
  intros [Hc Hlen].
  pose proof (Z.mod_pos_bound (Z.of_nat (Spec.slot c (length l) 0) + 1)
                              (Z.of_nat (length l))) as Hb.
  split; [lia | exact Hlen].
Qed.

Lemma round_robin_steps (m : nat) :
  forall this : RoundRobinLoadBalancer.t,
    _serversList (RoundRobinLoadBalancer.base this) = l ->
    Spec.cursor_fits (RoundRobinLoadBalancer._currentServerIndex this) (length l) ->
    exists this',
      RoundRobinLoadBalancer.getNextServers m h this
      = Some ((fun k => l !! Spec.slot (RoundRobinLoadBalancer._currentServerIndex this)
                                       (length l) k) <$> seq 0 m,
              this') /\
      RoundRobinLoadBalancer.base this' = RoundRobinLoadBalancer.base this.
Proof.
  induction m as [| m IH]; intros this Hpool Hfit.
  - exists this. split; reflexivity.
  - destruct (step _ Hfit) as (p & Hp & Hsel).
    set (c1 := (Z.of_nat (Spec.slot (RoundRobinLoadBalancer._currentServerIndex this)
                                    (length l) 0) + 1) mod Z.of_nat (length l)) in *.
    destruct (IH (RoundRobinLoadBalancer.set_currentServerIndex c1 this))
      as (this' & Hrest & Hbase).
    + exact Hpool.
    + apply next_cursor_fits. exact Hfit.
    + exists this'. split; [| exact Hbase].
      cbn [RoundRobinLoadBalancer.getNextServers].
      rewrite getNextServer_select by (rewrite Hpool; intros Hnil; rewrite Hnil in nonempty;
                                       cbn in nonempty; lia).
      rewrite Hpool, Hsel. cbn. rewrite Hrest. cbn.
      rewrite Hp. do 3 f_equal.
      rewrite <- fmap_S_seq, <- list_fmap_compose.
      apply list_fmap_ext. intros i k _. cbn.
      unfold c1. rewrite slot_next by exact nonempty. reflexivity.
Qed.

Lemma weighted_getNextServer_select (this : WeightedRoundRobinLoadBalancer.t) :
  WeightedRoundRobinLoadBalancer._weightedServersList this <> [] ->
  WeightedRoundRobinLoadBalancer.getNextServer h this
  = '(result, index) ← select h (WeightedRoundRobinLoadBalancer._weightedServersList this)
                              (WeightedRoundRobinLoadBalancer._currentServerIndex this);
    Some (result, WeightedRoundRobinLoadBalancer.set_currentServerIndex index this).
Proof.
  intros Hne. unfold WeightedRoundRobinLoadBalancer.getNextServer.
  destruct (WeightedRoundRobinLoadBalancer._weightedServersList this) eqn:Hlist;
    [congruence |].
  rewrite Hlist. reflexivity.
Qed.

Lemma weighted_steps (m : nat) :
  forall this : WeightedRoundRobinLoadBalancer.t,
    WeightedRoundRobinLoadBalancer._weightedServersList this = l ->
    Spec.cursor_fits (WeightedRoundRobinLoadBalancer._currentServerIndex this)
                     (length l) ->
    exists this',
      WeightedRoundRobinLoadBalancer.getNextServers m h this
      = Some ((fun k => l !! Spec.slot
                               (WeightedRoundRobinLoadBalancer._currentServerIndex this)
                               (length l) k) <$> seq 0 m,
              this') /\
      WeightedRoundRobinLoadBalancer._weightedServersList this' = l /\
      WeightedRoundRobinLoadBalancer.base this'
      = WeightedRoundRobinLoadBalancer.base this.
Proof.
  induction m as [| m IH]; intros this Hlist Hfit.
  - exists this. repeat split. exact Hlist.
  - destruct (step _ Hfit) as (p & Hp & Hsel).
    set (c1 := (Z.of_nat (Spec.slot (WeightedRoundRobinLoadBalancer._currentServerIndex this)
                                    (length l) 0) + 1) mod Z.of_nat (length l)) in *.
    destruct (IH (WeightedRoundRobinLoadBalancer.set_currentServerIndex c1 this))
      as (this' & Hrest & Hlist' & Hbase).
    + exact Hlist.
    + apply next_cursor_fits. exact Hfit.
    + exists this'. split; [| split; [exact Hlist' | exact Hbase]].
      cbn [WeightedRoundRobinLoadBalancer.getNextServers].
      rewrite weighted_getNextServer_select
        by (rewrite Hlist; intros Hnil; rewrite Hnil in nonempty; cbn in nonempty; lia).
      rewrite Hlist, Hsel. cbn. rewrite Hrest. cbn.
      rewrite Hp. do 3 f_equal.
      rewrite <- fmap_S_seq, <- list_fmap_compose.
      apply list_fmap_ext. intros i k _. cbn.
      unfold c1. rewrite slot_next by exact nonempty. reflexivity.
Qed.

End Cycling.

Section Steps.
Import Machine LoadBalancer.

(** The two situations in which a selection moves one place on. *)
Lemma step_all_usable (h : Heap) (l : list ServerPtr) :
  (1 <= length l)%nat ->
  (forall q, q ∈ l -> Spec.usable h q = true) ->
  forall c,
    Spec.cursor_fits c (length l) ->
    exists p,
      l !! Spec.slot c (length l) 0 = Some p /\
      select h l c
      = Some (Some p,
              (Z.of_nat (Spec.slot c (length l) 0) + 1) mod Z.of_nat (length l)).
Proof.
  intros Hn Hall c Hfit.
  destruct (slot_lookup l c 0) as [p Hp]; [lia |].
  exists p. split; [exact Hp |].
  apply (select_found h l c Hfit 0%nat p); [lia | exact Hp | |].
  - apply Hall. apply list_elem_of_lookup_2 in Hp. exact Hp.
  - intros j q Hj. lia.
Qed.

Lemma step_all_fallback (h : Heap) (l : list ServerPtr) :
  (1 <= length l)%nat ->
  NoDup l ->
  (forall q, q ∈ l -> Server.isAlive (h q) = true /\ Server.isHealthy (h q) = false) ->
  forall c,
    Spec.cursor_fits c (length l) ->
    exists p,
      l !! Spec.slot c (length l) 0 = Some p /\
      select h l c
      = Some (Some p,
              (Z.of_nat (Spec.slot c (length l) 0) + 1) mod Z.of_nat (length l)).
Proof.
  intros Hn Hnodup Hall c Hfit.
  destruct (slot_lookup l c 0) as [p Hp]; [lia |].
  exists p. split; [exact Hp |].
  destruct (select_fallback h l c Hfit 0%nat p) as (k & _ & _ & Hk & ->).
  - lia.
  - exact Hp.
  - apply Hall. apply list_elem_of_lookup_2 in Hp. exact Hp.
  - intros q Hq. unfold Spec.usable. destruct (Hall q Hq) as [-> ->]. reflexivity.
  - intros j q Hj. lia.
  - rewrite (Hk Hnodup). reflexivity.
Qed.

End Steps.

Section FallbackCycle.
Import Machine LoadBalancer RoundRobinLoadBalancer.

(** X15. Round robin keeps rotating when every probe fails: on a pool of
    [n >= 1] distinct targets that are all alive and none healthy, [n]
    calls in a row never return null and return the pool rotated to start
    under the cursor, every target once. *)
Theorem getNextServers_fallback_cycle (h : Heap) (this : RoundRobinLoadBalancer.t) :
  let pool := _serversList (base this) in
  let n := length pool in
  let cursor := _currentServerIndex this in
  (1 <= n)%nat ->
  Spec.cursor_fits cursor n ->
  NoDup pool ->
  (forall q, q ∈ pool ->
             Server.isAlive (h q) = true /\ Server.isHealthy (h q) = false) ->
  exists this',
    getNextServers n h this
    = Some (Some <$> rotate (Spec.slot cursor n 0) pool, this') /\
    rotate (Spec.slot cursor n 0) pool ≡ₚ pool /\
    base this' = base this.
Proof.
  cbn zeta. intros Hn Hfit Hnodup Hall.
  destruct (round_robin_steps h (_serversList (base this)) Hn
              (step_all_fallback h _ Hn Hnodup Hall)
              (length (_serversList (base this))) this eq_refl Hfit)
    as (this' & Hcalls & Hbase).
  exists this'. split_and!.
  - rewrite Hcalls, slots_rotate by exact Hn. reflexivity.
  - apply rotate_Permutation.
  - exact Hbase.
Qed.

Lemma getNextServers_fallback_cycle_witness :
  let h : Heap := fun p => Server.new "10.0.0.1:80" 1 0 in
  let this :=
    {| base := LoadBalancer.new [0%nat; 1%nat; 2%nat] ROUND_ROBIN 5000 3;
       _currentServerIndex := 2 |} in
  exists this',
    getNextServers 3 h this = Some ([Some 2%nat; Some 0%nat; Some 1%nat], this').
Proof.
  intros h this.
  destruct (getNextServers_fallback_cycle h this) as (this' & Hcalls & _).
  - cbn. lia.
  - unfold Spec.cursor_fits, PTRDIFF_MAX. cbn. lia.
  - refine (bool_decide_unpack _ _). vm_compute. exact I.
  - intros q _. split; reflexivity.
  - exists this'. exact Hcalls.
Defined.

End FallbackCycle.

(** ** Weighted round robin, continued *)

Section WeightedShares.
Import Machine LoadBalancer WeightedRoundRobinLoadBalancer.

Lemma occurrences_app (p : ServerPtr) (l k : list ServerPtr) :
  Spec.occurrences p (l ++ k) = (Spec.occurrences p l + Spec.occurrences p k)%nat.
Proof. unfold Spec.occurrences. rewrite list.filter_app, length_app. reflexivity. Qed.

Lemma occurrences_replicate (p q : ServerPtr) (n : nat) :
  Spec.occurrences p (replicate n q) = if decide (q = p) then n else 0%nat.
Proof.
  unfold Spec.occurrences. induction n as [| n IH]; cbn [replicate].
  - destruct (decide (q = p)); reflexivity.
  - rewrite filter_cons. destruct (decide (q = p)); cbn; rewrite IH; reflexivity.
Qed.

Lemma occurrences_absent (p : ServerPtr) (l : list ServerPtr) :
  p ∉ l -> Spec.occurrences p l = 0%nat.
Proof.
  unfold Spec.occurrences. induction l as [| q l IH]; intros Hnot; [reflexivity |].
  rewrite filter_cons. destruct (decide (q = p)) as [-> | Hne].
  - destruct Hnot. left.
  - apply IH. intros Hin. apply Hnot. right. exact Hin.
Qed.

(** In the expansion of a pool of distinct targets, an alive target occurs
    as often as its weight says. *)
Lemma occurrences_expansion (h : Heap) (p : ServerPtr) (pool : list ServerPtr) :
  NoDup pool -> p ∈ pool -> Server.isAlive (h p) = true ->
  Spec.occurrences p (Spec.expansion h pool) = Z.to_nat (Server.getWeight (h p)).
Proof.
  unfold Spec.expansion. induction pool as [| q pool IH]; intros Hnd Hin Halive.
  - apply elem_of_nil in Hin. destruct Hin.
  - apply list.NoDup_cons in Hnd as [Hq Hnd].
    rewrite bind_cons, occurrences_app.
    destruct (decide (q = p)) as [-> | Hne].
    + rewrite Halive, occurrences_replicate.
      destruct (decide (p = p)); [| congruence].
      rewrite occurrences_absent; [lia |].
      intros Hexp. apply Hq.
      apply (expansion_elem h pool p) in Hexp as [Hp _]. exact Hp.
    + apply elem_of_cons in Hin as [-> | Hin]; [congruence |].
      rewrite (IH Hnd Hin Halive).
      destruct (Server.isAlive (h q)).
      * rewrite occurrences_replicate. destruct (decide (q = p)); [congruence | lia].
      * reflexivity.
Qed.

Lemma getNextServers_rebuild (h : Heap) (this : WeightedRoundRobinLoadBalancer.t)
    (m : nat) :
  _weightedServersList this = [] ->
  getNextServers (S m) h this = getNextServers (S m) h (updateWeightedList h this).
Proof.
  intros Hempty. cbn [getNextServers]. unfold getNextServer. rewrite Hempty.
  rewrite !updateWeightedList_expansion.
  cbn [_weightedServersList set_weightedServersList base _currentServerIndex].
  destruct (Spec.expansion h (_serversList (base this))); reflexivity.
Qed.

Lemma getNextServers_rebuild_first (h : Heap) (this : WeightedRoundRobinLoadBalancer.t)
    (m : nat) :
  _weightedServersList this = [] -> (1 <= m)%nat ->
  getNextServers m h this = getNextServers m h (updateWeightedList h this).
Proof.
  intros Hempty Hm. destruct m as [| m]; [lia |].
  apply getNextServers_rebuild. exact Hempty.
Qed.

(** X16. Weights are shares: on a pool of distinct targets that are all
    alive and healthy, with an expansion list that is freshly built or
    still to be built, as many calls as the weights add up to return the
    expansion list rotated to start under the cursor, so each target is
    returned exactly [weight] times. *)
Theorem weighted_shares (h : Heap) (this : WeightedRoundRobinLoadBalancer.t) :
  let pool := _serversList (base this) in
  let total := length (Spec.expansion h pool) in
  let cursor := _currentServerIndex this in
  (_weightedServersList this = [] \/
   _weightedServersList this = Spec.expansion h pool) ->
  (1 <= total)%nat ->
  Spec.cursor_fits cursor total ->
  NoDup pool ->
  (forall q, q ∈ pool -> Spec.usable h q = true) ->
  exists order this',
    getNextServers total h this = Some (Some <$> order, this') /\
    order = rotate (Spec.slot cursor total 0) (Spec.expansion h pool) /\
    (forall p, p ∈ pool ->
               Spec.occurrences p order = Z.to_nat (Server.getWeight (h p))) /\
    (forall p, p ∉ pool -> Spec.occurrences p order = 0%nat).
Proof.
  cbn zeta. intros Hlist Htotal Hfit Hnodup Hall.
  set (l := Spec.expansion h (_serversList (base this))) in *.
  assert (Husable : forall q, q ∈ l -> Spec.usable h q = true).
  { intros q Hq. apply Hall. apply (expansion_elem h _ q) in Hq as [Hq _]. exact Hq. }
  assert (Hrun : exists this',
             getNextServers (length l) h this
             = Some ((fun k => l !! Spec.slot (_currentServerIndex this) (length l) k)
                       <$> seq 0 (length l), this')).
  { destruct Hlist as [Hempty | Hbuilt].
    - rewrite (getNextServers_rebuild_first h this (length l) Hempty Htotal).
      destruct (weighted_steps h l Htotal (step_all_usable h l Htotal Husable)
                  (length l) (updateWeightedList h this)) as (this' & Hcalls & _).
      + rewrite updateWeightedList_expansion. reflexivity.
      + rewrite updateWeightedList_expansion. exact Hfit.
      + exists this'. rewrite Hcalls, updateWeightedList_expansion. reflexivity.
    - destruct (weighted_steps h l Htotal (step_all_usable h l Htotal Husable)
                  (length l) this Hbuilt Hfit) as (this' & Hcalls & _).
      exists this'. exact Hcalls. }
  destruct Hrun as (this' & Hcalls).
  exists (rotate (Spec.slot (_currentServerIndex this) (length l) 0) l), this'.
  split_and!.
  - rewrite Hcalls, slots_rotate by exact Htotal. reflexivity.
  - reflexivity.
  - intros p Hp. unfold Spec.occurrences. rewrite rotate_Permutation.
    apply occurrences_expansion; [exact Hnodup | exact Hp |].
    specialize (Hall p Hp). unfold Spec.usable in Hall.
    apply andb_true_iff in Hall as [Ha _]. exact Ha.
  - intros p Hp. unfold Spec.occurrences. rewrite rotate_Permutation.
    apply occurrences_absent. intros Hin. apply Hp.
    apply (expansion_elem h _ p) in Hin as [Hin _]. exact Hin.
Qed.

Lemma weighted_shares_witness :
  let h : Heap := fun p =>
    match p with
    | O => Server.setHealthy true (Server.new "10.0.0.1:80" 3 0)
    | _ => Server.setHealthy true (Server.new "10.0.0.2:80" 1 0)
    end in
  let this :=
    {| base := LoadBalancer.new [0%nat; 1%nat] WEIGHTED_ROUND_ROBIN 5000 3;
       _currentServerIndex := 0;
       _weightedServersList := [] |} in
  exists this',
    getNextServers 4 h this
    = Some ([Some 0%nat; Some 0%nat; Some 0%nat; Some 1%nat], this').
Proof.
  intros h this.
  destruct (weighted_shares h this) as (order & this' & Hcalls & -> & _).
  - left. reflexivity.
  - vm_compute. lia.
  - split; [split |]; vm_compute; discriminate.
  - refine (bool_decide_unpack _ _). vm_compute. exact I.
  - intros q Hq. cbn in Hq.
    apply elem_of_cons in Hq as [-> | Hq]; [reflexivity |].
    apply elem_of_cons in Hq as [-> | Hq]; [reflexivity |].
    apply elem_of_nil in Hq. destruct Hq.
  - exists this'. exact Hcalls.
Defined.

End WeightedShares.

Section WeightedSelection.
Import Machine LoadBalancer WeightedRoundRobinLoadBalancer.

(** X17. While the expansion list is not empty, the weighted selection
    reads the list and not the pool: the list and the pool are left as they
    are; a returned server is a member of the list, alive, and healthy
    unless no member of the list is alive and healthy; a target that is
    not in the list is not returned; and a balancer with the same list and
    index but any other pool returns the same server and index. *)
Theorem weighted_selects_from_list (h : Heap)
    (this this' : WeightedRoundRobinLoadBalancer.t) (r : option ServerPtr) :
  _weightedServersList this <> [] ->
  Spec.cursor_fits (_currentServerIndex this) (length (_weightedServersList this)) ->
  getNextServer h this = Some (r, this') ->
  _weightedServersList this' = _weightedServersList this /\
  base this' = base this /\
  (forall p, r = Some p ->
     p ∈ _weightedServersList this /\
     Server.isAlive (h p) = true /\
     (Server.isHealthy (h p) = true \/
      forall q, q ∈ _weightedServersList this -> Spec.usable h q = false)) /\
  (forall q, q ∉ _weightedServersList this -> r <> Some q) /\
  (forall other,
     _weightedServersList other = _weightedServersList this ->
     _currentServerIndex other = _currentServerIndex this ->
     getNextServer h other
     = Some (r, set_currentServerIndex (_currentServerIndex this') other)).
Proof.
  intros Hne Hfit. rewrite (weighted_getNextServer_select h this Hne).
  destruct (select h (_weightedServersList this) (_currentServerIndex this))
    as [[r0 c'] |] eqn:Hsel; cbn; [| discriminate].
  intros [= -> <-]. cbn. split_and!; try reflexivity.
  - intros p ->.
    destruct (select_sound h _ _ Hfit p c' Hsel) as (Hin & Ha & Hh & _).
    split_and!; assumption.
  - intros q Hq ->.
    destruct (select_sound h _ _ Hfit q c' Hsel) as (Hin & _). exact (Hq Hin).
  - intros other Hlist Hcursor.
    rewrite (weighted_getNextServer_select h other) by (rewrite Hlist; exact Hne).
    rewrite Hlist, Hcursor, Hsel. reflexivity.
Qed.

Lemma weighted_selects_from_list_witness :
  let h : Heap := fun p => Server.setHealthy true (Server.new "10.0.0.1:80" 1 0) in
  let this :=
    {| base := LoadBalancer.new [0%nat; 1%nat] WEIGHTED_ROUND_ROBIN 5000 3;
       _currentServerIndex := 0;
       _weightedServersList := [0%nat; 1%nat] |} in
  let other :=
    {| base := LoadBalancer.new [2%nat; 3%nat; 4%nat] WEIGHTED_ROUND_ROBIN 5000 3;
       _currentServerIndex := 0;
       _weightedServersList := [0%nat; 1%nat] |} in
  getNextServer h other = Some (Some 0%nat, set_currentServerIndex 1 other).
Proof.
  intros h this other.
  destruct (weighted_selects_from_list h this (set_currentServerIndex 1 this)
              (Some 0%nat)) as (_ & _ & _ & _ & Hother).
  - discriminate.
  - unfold Spec.cursor_fits, PTRDIFF_MAX. cbn. lia.
  - reflexivity.
  - apply (Hother other); reflexivity.
Defined.

Section Pinned.
Variable h : Heap.
Variable l : list ServerPtr.
Variable p : ServerPtr.
Variable k : nat.
Hypothesis first_copy : l !! k = Some p.
Hypothesis none_before : forall j, (j < k)%nat -> l !! j <> Some p.
Hypothesis second_copy : l !! S k = Some p.
Hypothesis alive : Server.isAlive (h p) = true.
Hypothesis none_usable : forall q, q ∈ l -> Spec.usable h q = false.

Lemma first_copy_unique (k' : nat) :
  l !! k' = Some p -> (forall j, (j < k')%nat -> l !! j <> Some p) -> k' = k.
Proof.
  intros Hk' Hbefore.
  destruct (Nat.lt_trichotomy k' k) as [Hlt | [Heq | Hgt]]; [| exact Heq |].
  - destruct (none_before k' Hlt Hk').
  - destruct (Hbefore k Hgt first_copy).
Qed.

Lemma after_first_copy :
  (Z.of_nat k + 1) mod Z.of_nat (length l) = Z.of_nat (S k).
Proof.
  pose proof (lookup_lt_Some _ _ _ second_copy) as Hlt.
  rewrite Z.mod_small by lia. lia.
Qed.

(** A fallback selection of [p] leaves the index on the second copy. *)
Lemma fallback_to_second_copy (c : Z) (i : nat) :
  Spec.cursor_fits c (length l) ->
  (i < length l)%nat ->
  l !! Spec.slot c (length l) i = Some p ->
  (forall j q, (j < i)%nat -> l !! Spec.slot c (length l) j = Some q ->
               Server.isAlive (h q) = false) ->
  select h l c = Some (Some p, Z.of_nat (S k)).
Proof.
  intros Hfit Hi Hp Hdead.
  destruct (select_fallback h l c Hfit i p Hi Hp alive none_usable Hdead)
    as (k' & Hk' & Hbefore & _ & ->).
  rewrite (first_copy_unique k' Hk' Hbefore), after_first_copy. reflexivity.
Qed.

Lemma pinned_calls (m : nat) (this : WeightedRoundRobinLoadBalancer.t) :
  _weightedServersList this = l ->
  _currentServerIndex this = Z.of_nat (S k) ->
  Spec.cursor_fits (Z.of_nat (S k)) (length l) ->
  getNextServers m h this = Some (replicate m (Some p), this).
Proof.
  intros Hlist Hcursor Hfit.
  assert (Hone : getNextServer h this = Some (Some p, this)).
  { rewrite (weighted_getNextServer_select h this)
      by (rewrite Hlist; intros Hnil; rewrite Hnil in first_copy; discriminate).
    rewrite Hlist, Hcursor.
    rewrite (fallback_to_second_copy (Z.of_nat (S k)) 0 Hfit).
    - cbn. rewrite <- Hcursor. destruct this; reflexivity.
    - apply lookup_lt_Some in first_copy. lia.
    - pose proof (lookup_lt_Some _ _ _ second_copy) as Hlt.
      unfold Spec.slot. rewrite Z.add_0_r, Z.mod_small, Nat2Z.id by lia.
      exact second_copy.
    - intros j q Hj. lia. }
  induction m as [| m IH]; [reflexivity |].
  cbn [getNextServers]. rewrite Hone. cbn. rewrite IH. reflexivity.
Qed.

End Pinned.

(** X18. The fallback can pin the weighted selection to one target.  When
    no member of the expansion list is alive and healthy, and the first
    alive member that the scan meets has a second copy right after its
    first one (a weight of 2 or more), the index is set just past the first
    copy, that is on the second: every later call starts there, so the same
    target is returned by all calls, however many, and no other one is.
    The index is read from the balancer that the calls leave, whose list and
    pool are as they were. *)
Theorem weighted_fallback_pins (h : Heap) (this : WeightedRoundRobinLoadBalancer.t)
    (p : ServerPtr) (k i : nat) :
  let l := _weightedServersList this in
  let cursor := _currentServerIndex this in
  Spec.cursor_fits cursor (length l) ->
  l !! k = Some p ->
  (forall j, (j < k)%nat -> l !! j <> Some p) ->
  l !! S k = Some p ->
  Server.isAlive (h p) = true ->
  (forall q, q ∈ l -> Spec.usable h q = false) ->
  (i < length l)%nat ->
  l !! Spec.slot cursor (length l) i = Some p ->
  (forall j q, (j < i)%nat -> l !! Spec.slot cursor (length l) j = Some q ->
               Server.isAlive (h q) = false) ->
  forall m,
    exists this',
      getNextServers (S m) h this = Some (replicate (S m) (Some p), this') /\
      _currentServerIndex this' = Z.of_nat (S k) /\
      _weightedServersList this' = _weightedServersList this /\
      base this' = base this.
Proof.
  cbn zeta. intros Hfit Hk Hbefore Hk1 Halive Hnone Hi Hp Hdead m.
  assert (Hne : _weightedServersList this <> [])
    by (intros Hnil; rewrite Hnil in Hk; discriminate).
  exists (set_currentServerIndex (Z.of_nat (S k)) this).
  split; [| split_and!; reflexivity].
  cbn [getNextServers].
  rewrite (weighted_getNextServer_select h this Hne).
  rewrite (fallback_to_second_copy h _ p k Hk Hbefore Hk1 Halive Hnone
             (_currentServerIndex this) i Hfit Hi Hp Hdead).
  cbn.
  rewrite (pinned_calls h (_weightedServersList this) p k Hk Hbefore Hk1 Halive Hnone m
             (set_currentServerIndex (Z.of_nat (S k)) this)).
  - reflexivity.
  - reflexivity.
  - reflexivity.
  - destruct Hfit as [_ Hlen]. apply lookup_lt_Some in Hk1.
    split; [unfold PTRDIFF_MAX in *; lia | exact Hlen].
Qed.

Lemma weighted_fallback_pins_witness :
  let h : Heap := fun p => Server.new "10.0.0.1:80" 2 0 in
  let this :=
    {| base := LoadBalancer.new [0%nat; 1%nat] WEIGHTED_ROUND_ROBIN 5000 3;
       _currentServerIndex := 0;
       _weightedServersList := [0%nat; 0%nat; 1%nat; 1%nat] |} in
  exists this',
    getNextServers 5 h this = Some (replicate 5 (Some 0%nat), this') /\
    _currentServerIndex this' = 1 /\
    _weightedServersList this' = [0%nat; 0%nat; 1%nat; 1%nat] /\
    base this' = base this.
Proof.
  intros h this.
  apply (weighted_fallback_pins h this 0%nat 0%nat 0%nat).
  - unfold Spec.cursor_fits, PTRDIFF_MAX. cbn. lia.
  - reflexivity.
  - intros j Hj. lia.
  - reflexivity.
  - reflexivity.
  - intros q _. reflexivity.
  - cbn. lia.
  - reflexivity.
  - intros j q Hj. lia.
Defined.

End WeightedSelection.

Section CursorHelper.
Import Machine LoadBalancer RoundRobinLoadBalancer.

(** X19. [updateCurrentServer] leaves an empty pool's balancer as it is;
    on any other pool it keeps the pool and moves the index to
    [(index + 1) mod n], which is how a call of [getNextServer] that finds
    the target under the cursor alive and healthy moves it. *)
Theorem updateCurrentServer_advances (h : Heap) (this : RoundRobinLoadBalancer.t) :
  let pool := _serversList (base this) in
  let n := length pool in
  let cursor := _currentServerIndex this in
  Spec.cursor_fits cursor n ->
  (pool = [] -> updateCurrentServer this = this) /\
  ((1 <= n)%nat ->
   base (updateCurrentServer this) = base this /\
   _currentServerIndex (updateCurrentServer this) = (cursor + 1) mod Z.of_nat n /\
   0 <= _currentServerIndex (updateCurrentServer this) < Z.of_nat n /\
   forall p this',
     pool !! Spec.slot cursor n 0 = Some p ->
     Spec.usable h p = true ->
     getNextServer h this = Some (Some p, this') ->
     this' = updateCurrentServer this).
Proof.
  cbn zeta. intros Hfit. unfold updateCurrentServer.
  destruct (_serversList (base this)) as [| q rest] eqn:Hpool.
  - split; [reflexivity | cbn; lia].
  - split; [discriminate |]. intros Hn.
    assert (Hadd : size_add (_currentServerIndex this) 1 = _currentServerIndex this + 1).
    { destruct Hfit as [Hc _]. unfold PTRDIFF_MAX in Hc.
      unfold size_add, wrap64. apply Z.mod_small. lia. }
    rewrite Hadd. cbn [base _currentServerIndex set_currentServerIndex].
    split_and!.
    + reflexivity.
    + reflexivity.
    + apply Z.mod_pos_bound. cbn [length]. lia.
    + apply Z.mod_pos_bound. cbn [length]. lia.
    + intros p this' Hp Hup Hcall.
      rewrite getNextServer_select in Hcall by (rewrite Hpool; discriminate).
      rewrite Hpool in Hcall.
      rewrite (select_found h (q :: rest) _ Hfit 0%nat p) in Hcall;
        [| cbn; lia | exact Hp | exact Hup | intros j x Hj; lia].
      cbn in Hcall. injection Hcall as <-. f_equal.
      unfold Spec.slot.
      pose proof (Z.mod_pos_bound (_currentServerIndex this + Z.of_nat 0)
                                  (Z.of_nat (length (q :: rest)))) as Hb.
      rewrite Z2Nat.id by (cbn [length] in *; lia).
      rewrite Z.add_0_r, Z.add_mod_idemp_l by (cbn [length]; lia).
      reflexivity.
Qed.

Lemma updateCurrentServer_advances_witness :
  let this :=
    {| base := LoadBalancer.new [0%nat; 1%nat; 2%nat] ROUND_ROBIN 5000 3;
       _currentServerIndex := 2 |} in
  _currentServerIndex (updateCurrentServer this) = 0.
Proof.
  intros this.
  destruct (updateCurrentServer_advances (fun _ => Server.new "10.0.0.1:80" 1 0) this)
    as [_ Hmove].
  - unfold Spec.cursor_fits, PTRDIFF_MAX. cbn. lia.
  - destruct Hmove as (_ & Hindex & _); [cbn; lia |].
    rewrite Hindex. reflexivity.
Defined.

End CursorHelper.

Lemma resolveHostname_frame_witness :
  let inet_pton4 := fun s => bool_decide (s = "10.0.0.1") in
  let dns_answer := fun (_ : string) (_ : PingServer.World) => Some "93.184.216.34" in
  let dns_latency := fun (_ : string) (_ : PingServer.World) => 5 in
  let cached :=
    PingServer.set_dnsCache
      {[ "other.example" := {| PingServer.resolvedIP := "192.0.2.7";
                               PingServer.expiryTime := 300005 |} ]}
      (PingServer.new 1000 5000) in
  let w := {| PingServer.steady_clock_now := 0; PingServer.resolutions := [] |} in
  PingServer._dnsCache
    (PingServer.resolveHostname inet_pton4 dns_answer dns_latency 1000
                                "example.org" cached w).1.2 !! "other.example"
  = PingServer._dnsCache cached !! "other.example".
Proof.
  intros inet_pton4 dns_answer dns_latency cached w.
  apply (resolveHostname_frame inet_pton4 dns_answer dns_latency 1000
           "example.org" cached w).
  discriminate.
Defined.
